(** * zss_json: JSON-to-tree conversion and CER-weighted Zhang-Shasha distance

    A shallow embedding of [zss_json.py] ([json_to_tree], [count_nodes],
    [tree_error_rate]) and [ted_cer.py] ([distance_with_cer]), together with
    the parts of the [zss] package they call ([Node], [AnnotatedTree],
    [distance], [simple_distance]).

    Costs and distances are Python floats in the source; they are modelled
    as rationals [Q]. Python's [==] and [<] on them are [Qeq_bool] and a
    strict comparison built from [Qle_bool]. *)

From Stdlib Require Import String ZArith QArith Qminmax Lqa.
From stdpp Require Import base list gmap sorting.

Set Warnings "-register-all".

(** ** Nested JSON values, as produced by [json.loads] *)

Inductive scalar :=
| SStr (s : string)
| SNum (z : Z)
| SBool (b : bool)
| SNull.

Inductive json :=
| JDict (kvs : list (string * json))   (* key order = insertion order *)
| JList (xs : list json)
| JScalar (s : scalar).

(** A mapping key used as a node label: [Node(k)] with [k] a string. *)
Definition key (k : string) : json := JScalar (SStr k).

(** ** [zss.Node]: a label and an ordered list of children *)

Inductive node :=
| Node (label : json) (children : list node).

Definition get_label (t : node) : json := match t with Node l _ => l end.
Definition get_children (t : node) : list node := match t with Node _ ks => ks end.

(** ** [json_to_tree]: the explicit-stack conversion of [zss_json.py]

    The Python code allocates [Node] objects, pushes them on a stack together
    with the value still to expand, and mutates them later through
    [parent.addkid(...)]. The heap of [Node] objects is modelled as a store
    indexed by object identity; the stack holds (object id, value) pairs,
    its head being the top ([stack.pop()] / [stack.append]). *)

Record cell := mkCell { c_label : json; c_kids : list nat }.

Abbreviation store := (list cell).

(** [Node(l)]: a fresh object with no children. *)
Definition new_node (σ : store) (l : json) : nat * store :=
  (length σ, σ ++ [mkCell l []]).

(** [parent.addkid(child)]: [self.children.append(node)]. *)
Definition addkid (σ : store) (p c : nat) : store :=
  match σ !! p with
  | Some (mkCell l ks) => <[p := mkCell l (ks ++ [c])]> σ
  | None => σ
  end.

Abbreviation stack := (list (nat * json)).

(** [for k, v in d.items(): child_node = Node(k); parent.addkid(child_node);
    stack.append((child_node, v))] *)
Definition push_items (parent : nat) (acc : store * stack)
    (kvs : list (string * json)) : store * stack :=
  fold_left (fun '(σ, st) '(k, v) =>
      let '(c, σ1) := new_node σ (key k) in
      (addkid σ1 parent c, (c, v) :: st)) kvs acc.

(** The body of the [while stack:] loop once [(parent, children)] has been
    popped. *)
Definition expand (σ : store) (st : stack) (parent : nat) (children : json)
    : store * stack :=
  match children with
  | JList xs =>
      fold_left (fun '(σ, st) child =>
          match child with
          | JDict kvs => push_items parent (σ, st) kvs
          | _ => let '(c, σ1) := new_node σ child in (addkid σ1 parent c, st)
          end) xs (σ, st)
  | JDict kvs => push_items parent (σ, st) kvs
  | JScalar _ =>
      let '(c, σ1) := new_node σ children in (addkid σ1 parent c, st)
  end.

(** [while stack: parent, children = stack.pop(); ...]. The Python loop has
    no bound; [fuel] is chosen by [json_to_tree] from the size of the input,
    and the loop is proved to empty the stack within it. *)
Fixpoint run (fuel : nat) (σ : store) (st : stack) : store :=
  match fuel with
  | O => σ
  | S f =>
      match st with
      | [] => σ
      | (p, v) :: st' => let '(σ', st'') := expand σ st' p v in run f σ' st''
      end
  end.

Fixpoint json_size (v : json) : nat :=
  match v with
  | JDict kvs => S (list_sum (map (fun kv => json_size kv.2) kvs))
  | JList xs => S (list_sum (map json_size xs))
  | JScalar _ => 1
  end.

(** Reading the object graph rooted at an id back as a tree value. Every
    child id is larger than its parent's id, so the depth is below the
    number of objects; [read] is given that many steps. *)
Fixpoint read (σ : store) (fuel : nat) (id : nat) : option node :=
  match fuel with
  | O => None
  | S f =>
      match σ !! id with
      | None => None
      | Some c => Node (c_label c) <$> mapM (read σ f) (c_kids c)
      end
  end.

(** [json_to_tree]: a mapping at the root contributes only its first key
    ([break  # Ensure only one root]); any other input leaves [root = None]. *)
Definition json_to_tree (j : json) : option node :=
  match j with
  | JDict ((k, v) :: _) =>
      let σ := run (json_size j) [mkCell (key k) []] [(0%nat, v)] in
      read σ (S (length σ)) 0
  | _ => None
  end.

(** [count_nodes]: [None] counts 0, a node counts itself plus its
    subtrees. *)
Fixpoint count_node (t : node) : nat :=
  match t with
  | Node _ ks => S (list_sum (map count_node ks))
  end.

Definition count_nodes (t : option node) : nat :=
  match t with None => 0%nat | Some t => count_node t end.

(** The children the spec describes for a value below the root (claim C6):
    a sequence element that is a mapping contributes one child per key,
    flattened into the parent; any other element is a leaf labelled by
    itself; a mapping contributes one child per key; a terminal scalar is a
    single leaf. Order is the input iteration order. *)
Fixpoint spec_children (v : json) : list node :=
  match v with
  | JList xs =>
      flat_map (fun e =>
        match e with
        | JDict kvs => map (fun kv => Node (key kv.1) (spec_children kv.2)) kvs
        | _ => [Node e []]
        end) xs
  | JDict kvs => map (fun kv => Node (key kv.1) (spec_children kv.2)) kvs
  | JScalar _ => [Node v []]
  end.

(** ** Proof infrastructure for [json_to_tree] *)

Module JsonTree.

(** The children created by one [expand], in creation order: a label and,
    for a pushed child, the value left to expand. *)
Definition items (v : json) : list (json * option json) :=
  match v with
  | JList xs =>
      flat_map (fun e =>
        match e with
        | JDict kvs => map (fun kv => (key kv.1, Some kv.2)) kvs
        | _ => [(e, None)]
        end) xs
  | JDict kvs => map (fun kv => (key kv.1, Some kv.2)) kvs
  | JScalar _ => [(v, None)]
  end.

Definition item_node (it : json * option json) : node :=
  Node it.1 (match it.2 with Some w => spec_children w | None => [] end).

Definition step_item (parent : nat) (acc : store * stack)
    (it : json * option json) : store * stack :=
  let '(σ, st) := acc in
  let '(c, σ1) := new_node σ it.1 in
  (addkid σ1 parent c, match it.2 with Some w => (c, w) :: st | None => st end).

(** Stack entries pushed by [step_item] over [its] starting at id [N]
    (top of the stack first). *)
Fixpoint pushes (N : nat) (its : list (json * option json)) : stack :=
  match its with
  | [] => []
  | it :: r =>
      pushes (S N) r ++ match it.2 with Some w => [(N, w)] | None => [] end
  end.

Fixpoint pending (st : stack) (id : nat) : option json :=
  match st with
  | [] => None
  | (i, v) :: r => if Nat.eqb i id then Some v else pending r id
  end.

(** Reading the store while the stack is not empty: a pending object is
    read as the tree it will become. *)
Fixpoint readP (σ : store) (st : stack) (fuel id : nat) : option node :=
  match fuel with
  | O => None
  | S f =>
      match σ !! id with
      | None => None
      | Some c =>
          match pending st id with
          | Some v => Some (Node (c_label c) (spec_children v))
          | None => Node (c_label c) <$> mapM (readP σ st f) (c_kids c)
          end
      end
  end.

Definition wf (σ : store) (st : stack) : Prop :=
  NoDup (map fst st) /\
  (forall i w, In (i, w) st -> exists l, σ !! i = Some (mkCell l [])).

Definition measure (st : stack) : nat := list_sum (map (fun e => json_size e.2) st).

Definition isize (its : list (json * option json)) : nat :=
  list_sum (map (fun it => match it.2 with Some w => json_size w | None => 0%nat end) its).

End JsonTree.

(** ** [zss.AnnotatedTree]

    [nodes] is the postorder enumeration, [lmds] the left-most descendant of
    each postorder index (for a node, the first index of its subtree), and
    [keyroots] is [sorted(keyroots.values())] for the dictionary filled by
    [keyroots[lmd] = i] in postorder. Indices are 0-based, as in [zss]. *)
Fixpoint post (t : node) (off : nat) : list node * list nat :=
  match t with
  | Node _ ks =>
      let fix go (ks : list node) (o : nat) : list node * list nat :=
        match ks with
        | [] => ([], [])
        | k :: r =>
            let '(n1, l1) := post k o in
            let '(n2, l2) := go r (o + length n1) in
            (n1 ++ n2, l1 ++ l2)
        end in
      let '(ns, ls) := go ks off in (ns ++ [t], ls ++ [off])
  end.

Definition keyroots_of (lmds : list nat) : list nat :=
  let kr := fold_left (fun (m : gmap nat nat) '(i, l) => <[l := i]> m)
              (zip (seq 0 (length lmds)) lmds) ∅ in
  merge_sort Nat.le (map snd (map_to_list kr)).

Record annotated := mkAnnotated {
  a_nodes : list node;
  a_lmds : list nat;
  a_keyroots : list nat
}.

Inductive py_error := AttributeError | TypeError | ValueError | ZeroDivisionError.

Inductive result (A : Type) := Ok (a : A) | Err (e : py_error).
Arguments Ok {A} a.
Arguments Err {A} e.

(** [AnnotatedTree(root, get_children)]: [get_children(None)] reads
    [None.children] and raises [AttributeError]. *)
Definition AnnotatedTree (t : option node) : result annotated :=
  match t with
  | None => Err AttributeError
  | Some t =>
      let '(ns, ls) := post t 0 in Ok (mkAnnotated ns ls (keyroots_of ls))
  end.

(** ** The distance engine of [zss.distance] / [ted_cer.distance_with_cer] *)

Inductive op :=
| ORemove (a : node)
| OInsert (b : node)
| OUpdate (a b : node)
| OMatch (a b : node).

(** Two-dimensional tables ([zeros((m, n))] and lists of lists), all
    initialised to [0] / [[]]. *)
Definition upd2 {A} (f : nat -> nat -> A) (a b : nat) (v : A) : nat -> nat -> A :=
  fun x y => if Nat.eqb x a && Nat.eqb y b then v else f x y.

(** The local tables of one [treedist(i, j)] call: [fd] and [partial_ops]. *)
Record fdt := mkF { fd : nat -> nat -> Q; pops : nat -> nat -> list op }.

(** The global tables: [treedists] and [operations]. *)
Record dpt := mkD { treedists : nat -> nat -> Q; operations : nat -> nat -> list op }.

(** Python indexing of a sequence of length [len] by a possibly negative
    integer. *)
Definition py_idx (len : nat) (z : Z) : nat :=
  if (z <? 0)%Z then Z.to_nat (Z.of_nat len + z) else Z.to_nat z.

(** [a < b] on floats. *)
Definition Qltb (a b : Q) : bool := negb (Qle_bool b a).

(** [min(costs)]: the first element, replaced by each later element that is
    strictly smaller. Only called on non-empty lists. *)
Definition py_min (cs : list Q) : Q :=
  match cs with
  | [] => 0%Q
  | c :: r => fold_left (fun m x => if Qltb x m then x else m) r c
  end.

(** [costs.index(v)]: the first position holding a value [== v]. Only
    called with [v] an element of [cs]. *)
Fixpoint py_index (cs : list Q) (v : Q) : nat :=
  match cs with
  | [] => 0
  | c :: r => if Qeq_bool c v then 0 else S (py_index r v)
  end.

Definition nodeA (A : annotated) (k : nat) : node :=
  nth k (a_nodes A) (Node (JScalar SNull) []).

Definition lmd (A : annotated) (k : nat) : nat := nth k (a_lmds A) 0.

Section Engine.

Variables (insert_cost remove_cost : node -> Q) (relabel_cost : node -> node -> Q).
Variables (A B : annotated).

(** [treedist(i, j)]: the sizes [m], [n] and the offsets [ioff = Al[i] - 1],
    [joff = Bl[j] - 1]; the table cell [x] stands for node [x + ioff]. *)
Definition fd_rows (i : nat) : nat := (i - lmd A i + 2)%nat.
Definition fd_cols (j : nat) : nat := (j - lmd B j + 2)%nat.

(** The two initial loops of [treedist]: [fd[x][0]] and [fd[0][y]]. *)
Definition treedist_init (i j : nat) : fdt :=
  let li := lmd A i in
  let lj := lmd B j in
  let F0 := mkF (fun _ _ => 0%Q) (fun _ _ => []) in
  let F1 := fold_left (fun F x =>
      let nd := nodeA A (x + li - 1) in
      mkF (upd2 (fd F) x 0 (fd F (x - 1)%nat 0 + remove_cost nd)%Q)
          (upd2 (pops F) x 0 (pops F (x - 1)%nat 0 ++ [ORemove nd])))
      (seq 1 (fd_rows i - 1)) F0 in
  fold_left (fun F y =>
      let nd := nodeA B (y + lj - 1) in
      mkF (upd2 (fd F) 0 y (fd F 0 (y - 1)%nat + insert_cost nd)%Q)
          (upd2 (pops F) 0 y (pops F 0 (y - 1)%nat ++ [OInsert nd])))
      (seq 1 (fd_cols j - 1)) F1.

(** The [costs] list of the same-lineage branch. *)
Definition lineage_costs (F : fdt) (x y : nat) (n1 n2 : node) : list Q :=
  [(fd F (x - 1)%nat y + remove_cost n1)%Q;
   (fd F x (y - 1)%nat + insert_cost n2)%Q;
   (fd F (x - 1)%nat (y - 1)%nat + relabel_cost n1 n2)%Q].

(** The [costs] list of the other branch, [p], [q] being the boundary
    positions and [(a, b)] the nodes of the cell. *)
Definition reuse_costs (F : fdt) (D : dpt) (x y p q a b : nat) (n1 n2 : node)
    : list Q :=
  [(fd F (x - 1)%nat y + remove_cost n1)%Q;
   (fd F x (y - 1)%nat + insert_cost n2)%Q;
   (fd F p q + treedists D a b)%Q].

(** One iteration of the double loop of [treedist(i, j)] at cell [(x, y)]. *)
Definition treedist_cell (i j : nat) (acc : fdt * dpt) (x y : nat) : fdt * dpt :=
  let '(F, D) := acc in
  let li := lmd A i in
  let lj := lmd B j in
  let a := (x + li - 1)%nat in
  let b := (y + lj - 1)%nat in
  let n1 := nodeA A a in
  let n2 := nodeA B b in
  if Nat.eqb li (lmd A a) && Nat.eqb lj (lmd B b) then
    let costs := lineage_costs F x y n1 n2 in
    let v := py_min costs in
    let k := py_index costs v in
    let o :=
      if Nat.eqb k 0 then pops F (x - 1)%nat y ++ [ORemove n1]
      else if Nat.eqb k 1 then pops F x (y - 1)%nat ++ [OInsert n2]
      else pops F (x - 1)%nat (y - 1)%nat ++
             [if Qeq_bool v (fd F (x - 1)%nat (y - 1)%nat)
              then OMatch n1 n2 else OUpdate n1 n2] in
    (mkF (upd2 (fd F) x y v) (upd2 (pops F) x y o),
     mkD (upd2 (treedists D) a b v) (upd2 (operations D) a b o))
  else
    let p := py_idx (fd_rows i) (Z.of_nat (lmd A a) - 1 - (Z.of_nat li - 1)) in
    let q := py_idx (fd_cols j) (Z.of_nat (lmd B b) - 1 - (Z.of_nat lj - 1)) in
    let costs := reuse_costs F D x y p q a b n1 n2 in
    let v := py_min costs in
    let k := py_index costs v in
    let o :=
      if Nat.eqb k 0 then pops F (x - 1)%nat y ++ [ORemove n1]
      else if Nat.eqb k 1 then pops F x (y - 1)%nat ++ [OInsert n2]
      else pops F p q ++ operations D a b in
    (mkF (upd2 (fd F) x y v) (upd2 (pops F) x y o), D).

(** [treedist(i, j)], returning the final local and global tables. *)
Definition treedist_tables (D : dpt) (i j : nat) : fdt * dpt :=
  fold_left (fun acc x =>
      fold_left (fun acc y => treedist_cell i j acc x y)
        (seq 1 (fd_cols j - 1)) acc)
    (seq 1 (fd_rows i - 1)) (treedist_init i j, D).

Definition treedist (D : dpt) (i j : nat) : dpt := snd (treedist_tables D i j).

(** [for i in A.keyroots: for j in B.keyroots: treedist(i, j)] *)
Definition distance_tables : dpt :=
  fold_left (fun D i => fold_left (fun D j => treedist D i j) (a_keyroots B) D)
    (a_keyroots A) (mkD (fun _ _ => 0%Q) (fun _ _ => [])).

End Engine.

(** A Python value returned by the distance functions: a float, or the pair
    [(distance, operations)] when [return_operations] is set. *)
Inductive pyval := VNum (d : Q) | VPair (d : Q) (ops : list op).

(** The body shared by [zss.distance] and [ted_cer.distance_with_cer]; they
    differ only in the relabel cost of the same-lineage branch. The result
    is [treedists[-1][-1]] (and [operations[-1][-1]]). *)
Definition distance_core (insert_cost remove_cost : node -> Q)
    (relabel_cost : node -> node -> Q) (ta tb : option node)
    (return_operations : bool) : result pyval :=
  match AnnotatedTree ta with
  | Err e => Err e
  | Ok A =>
      match AnnotatedTree tb with
      | Err e => Err e
      | Ok B =>
          let D := distance_tables insert_cost remove_cost relabel_cost A B in
          let ia := (length (a_nodes A) - 1)%nat in
          let ib := (length (a_nodes B) - 1)%nat in
          if return_operations
          then Ok (VPair (treedists D ia ib) (operations D ia ib))
          else Ok (VNum (treedists D ia ib))
      end
  end.

(** [zss.distance]: the relabel cost is [update_cost(node1, node2)]. *)
Definition zss_distance (insert_cost remove_cost : node -> Q)
    (update_cost : node -> node -> Q) (ta tb : option node)
    (return_operations : bool) : result pyval :=
  distance_core insert_cost remove_cost update_cost ta tb return_operations.

(** Lines 104-109 of [ted_cer.py]: a positive update cost is multiplied by
    [min(jiwer.cer(label1, label2), 1)]; otherwise it is used as it is and
    the CER is not computed. [jiwer.cer] may raise, and its exception then
    escapes. *)
Definition cer_relabel (update_cost : node -> node -> Q)
    (cer : json -> json -> result Q) (n1 n2 : node) : result Q :=
  if Qltb 0 (update_cost n1 n2) then
    match cer (get_label n1) (get_label n2) with
    | Err e => Err e
    | Ok c => Ok (update_cost n1 n2 * py_min [c; 1])%Q
    end
  else Ok (update_cost n1 n2).

(** A loop whose body may raise: the first exception ends it. *)
Fixpoint fold_result {X Y : Type} (f : X -> Y -> result X) (l : list Y) (acc : X)
    : result X :=
  match l with
  | [] => Ok acc
  | y :: r =>
      match f acc y with
      | Err e => Err e
      | Ok acc' => fold_result f r acc'
      end
  end.

Section CerEngine.

Variables (insert_cost remove_cost : node -> Q) (update_cost : node -> node -> Q).
Variables (cer : json -> json -> result Q) (A B : annotated).

(** One iteration of the double loop of [treedist(i, j)] in [ted_cer.py]. In
    the same-lineage branch the relabel cost is computed first (lines
    104-109), and an exception raised there ends the whole call; with its
    value, the cell is updated as in [treedist_cell]. The other branch
    computes no relabel cost ([treedist_cell] does not read it there). *)
Definition treedist_cell_cer (i j : nat) (acc : fdt * dpt) (x y : nat)
    : result (fdt * dpt) :=
  let a := (x + lmd A i - 1)%nat in
  let b := (y + lmd B j - 1)%nat in
  if Nat.eqb (lmd A i) (lmd A a) && Nat.eqb (lmd B j) (lmd B b) then
    match cer_relabel update_cost cer (nodeA A a) (nodeA B b) with
    | Err e => Err e
    | Ok r => Ok (treedist_cell insert_cost remove_cost (fun _ _ => r) A B i j acc x y)
    end
  else Ok (treedist_cell insert_cost remove_cost (fun _ _ => 0%Q) A B i j acc x y).

(** [treedist(i, j)] of [ted_cer.py]. *)
Definition treedist_cer (D : dpt) (i j : nat) : result dpt :=
  match fold_result (fun acc x =>
          fold_result (fun acc y => treedist_cell_cer i j acc x y)
            (seq 1 (fd_cols B j - 1)) acc)
        (seq 1 (fd_rows A i - 1)) (treedist_init insert_cost remove_cost A B i j, D) with
  | Err e => Err e
  | Ok acc => Ok (snd acc)
  end.

(** [for i in A.keyroots: for j in B.keyroots: treedist(i, j)] *)
Definition distance_tables_cer : result dpt :=
  fold_result (fun D i => fold_result (fun D j => treedist_cer D i j) (a_keyroots B) D)
    (a_keyroots A) (mkD (fun _ _ => 0%Q) (fun _ _ => [])).

End CerEngine.

(** [ted_cer.distance_with_cer]; [cer] is the external [jiwer.cer]. *)
Definition distance_with_cer (insert_cost remove_cost : node -> Q)
    (update_cost : node -> node -> Q) (cer : json -> json -> result Q)
    (ta tb : option node) (return_operations : bool) : result pyval :=
  match AnnotatedTree ta with
  | Err e => Err e
  | Ok A =>
      match AnnotatedTree tb with
      | Err e => Err e
      | Ok B =>
          match distance_tables_cer insert_cost remove_cost update_cost cer A B with
          | Err e => Err e
          | Ok D =>
              let ia := (length (a_nodes A) - 1)%nat in
              let ib := (length (a_nodes B) - 1)%nat in
              if return_operations
              then Ok (VPair (treedists D ia ib) (operations D ia ib))
              else Ok (VNum (treedists D ia ib))
          end
      end
  end.

(** The default cost lambdas built from a label distance [label_dist]. *)
Definition empty_label : json := JScalar (SStr EmptyString).
Definition ins_cost (label_dist : json -> json -> Q) (t : node) : Q :=
  label_dist empty_label (get_label t).
Definition rem_cost (label_dist : json -> json -> Q) (t : node) : Q :=
  label_dist (get_label t) empty_label.
Definition upd_cost (label_dist : json -> json -> Q) (a b : node) : Q :=
  label_dist (get_label a) (get_label b).

(** [zss.simple_distance(A, B)] with [zss]'s own [strdist]. *)
Definition simple_distance (zss_strdist : json -> json -> Q) (ta tb : option node)
    : result pyval :=
  zss_distance (ins_cost zss_strdist) (rem_cost zss_strdist)
    (upd_cost zss_strdist) ta tb false.

(** [distance / count_nodes(ref_tree)]: a tuple cannot be divided. *)
Definition py_div (v : pyval) (n : nat) : result Q :=
  match v with
  | VPair _ _ => Err TypeError
  | VNum d =>
      if Nat.eqb n 0 then Err ZeroDivisionError
      else Ok (d / inject_Z (Z.of_nat n))%Q
  end.

(** [tree_error_rate(ref_tree, hyp_tree, substring_bonus, label_dist=strdist,
    return_operations)]: [zss_strdist] is the [strdist] used inside [zss],
    [label_dist] the one of [zss_json.py], [cer] is [jiwer.cer]. *)
Definition tree_error_rate (zss_strdist label_dist : json -> json -> Q)
    (cer : json -> json -> result Q)
    (ref_tree hyp_tree : option node) (substring_bonus return_operations : bool)
    : result Q :=
  if substring_bonus then
    match distance_with_cer (ins_cost label_dist) (rem_cost label_dist)
            (upd_cost label_dist) cer ref_tree hyp_tree return_operations with
    | Err e => Err e
    | Ok dist => py_div dist (count_nodes ref_tree)
    end
  else
    match simple_distance zss_strdist ref_tree hyp_tree with
    | Err e => Err e
    | Ok dist => py_div dist (count_nodes ref_tree)
    end.

(** The fallback [strdist] of both modules: [0 if a == b else 1]. Label
    equality is decided structurally; mappings are compared entry by entry
    in order (labels are keys, scalars or sequences, so a mapping only occurs
    inside a sequence label). *)
Definition scalar_eqb (a b : scalar) : bool :=
  match a, b with
  | SStr s, SStr t => String.eqb s t
  | SNum x, SNum y => Z.eqb x y
  | SBool x, SBool y => Bool.eqb x y
  | SNull, SNull => true
  | _, _ => false
  end.

Fixpoint json_eqb (a b : json) {struct a} : bool :=
  match a, b with
  | JDict kvs, JDict lvs =>
      (fix go (xs ys : list (string * json)) : bool :=
         match xs, ys with
         | [], [] => true
         | (k1, v1) :: r1, (k2, v2) :: r2 =>
             String.eqb k1 k2 && json_eqb v1 v2 && go r1 r2
         | _, _ => false
         end) kvs lvs
  | JList xs, JList ys =>
      (fix go (xs ys : list json) : bool :=
         match xs, ys with
         | [], [] => true
         | x :: r1, y :: r2 => json_eqb x y && go r1 r2
         | _, _ => false
         end) xs ys
  | JScalar s, JScalar t => scalar_eqb s t
  | _, _ => false
  end.

Definition strdist_fallback (a b : json) : Q :=
  if json_eqb a b then 0%Q else 1%Q.

(** The input check of [jiwer.cer(reference, hypothesis)]: each argument
    must be a string or a list of strings, or [ValueError] is raised before
    anything is computed. What [jiwer] computes on accepted inputs (and the
    further errors it may raise there) is the parameter [measure]. *)
Definition jiwer_input (l : json) : bool :=
  match l with
  | JScalar (SStr _) => true
  | JList xs => forallb (fun x => match x with JScalar (SStr _) => true | _ => false end) xs
  | _ => false
  end.

Definition jiwer_cer (measure : json -> json -> result Q) (l1 l2 : json) : result Q :=
  if jiwer_input l1 && jiwer_input l2 then measure l1 l2 else Err ValueError.


(** The labels of a tree, in postorder. *)
Definition labels (t : node) : list json := map get_label (post t 0).1.

(** [cer] returns a value on every pair of labels of [ta] and [tb]. *)
Definition cer_defined (cer : json -> json -> result Q) (ta tb : node) : Prop :=
  forall l1 l2, In l1 (labels ta) -> In l2 (labels tb) -> exists c, cer l1 l2 = Ok c.

(** The value of the relabel cost where it is defined (the cells where it
    raises are never completed). *)
Definition cer_relabel_value (update_cost : node -> node -> Q)
    (cer : json -> json -> result Q) (n1 n2 : node) : Q :=
  match cer_relabel update_cost cer n1 n2 with Ok r => r | Err _ => 0%Q end.

(** The tie-breaking rule as the specification words it: the first
    position of [cs], scanned from the left, whose cost is not larger than
    any cost of [cs]. *)
Fixpoint first_index (p : Q -> bool) (cs : list Q) : nat :=
  match cs with
  | [] => 0
  | c :: r => if p c then 0 else S (first_index p r)
  end.

Definition first_min (cs : list Q) : nat :=
  first_index (fun c => forallb (fun d => Qle_bool c d) cs) cs.


(** ** Printing, sums over trees, and comparisons of DP tables *)

(** The recursion over the children inside [post], named so that it can be
    unfolded in proofs. *)
Definition post_go (f : node -> nat -> list node * list nat) :=
  fix go (ks : list node) (o : nat) : list node * list nat :=
    match ks with
    | [] => ([], [])
    | k :: r =>
        let '(n1, l1) := f k o in
        let '(n2, l2) := go r (o + length n1) in
        (n1 ++ n2, l1 ++ l2)
    end.

(** [print_tree(node, level)] of [zss_json.py] (and its copy in
    [json2tree.py]): the lines it prints, in order, with the label rendered
    by [show] (Python's f-string formatting of [node.label]). *)
Fixpoint indent (level : nat) : string :=
  match level with
  | O => EmptyString
  | S n => append "    " (indent n)
  end.

Fixpoint print_node (show : json -> string) (t : node) (level : nat) : list string :=
  match t with
  | Node l ks =>
      append (indent level) (append "- " (show l)) ::
      (fix go (ks : list node) : list string :=
         match ks with
         | [] => []
         | k :: r => print_node show k (S level) ++ go r
         end) ks
  end.

Definition print_tree (show : json -> string) (t : option node) (level : nat) : list string :=
  match t with None => [] | Some t => print_node show t level end.

(** Sums used to state bounds on the distance: over an index range, over a
    list of nodes, and over every node of a tree. *)
Definition sum_seq (g : nat -> Q) (s n : nat) : Q :=
  fold_right (fun k acc => (g k + acc)%Q) 0%Q (seq s n).

Definition sum_nodes (f : node -> Q) (ns : list node) : Q :=
  fold_right (fun n acc => (f n + acc)%Q) 0%Q ns.

Fixpoint tree_sum (f : node -> Q) (t : node) : Q :=
  match t with
  | Node _ ks =>
      (f t + (fix go (ks : list node) : Q :=
                match ks with
                | [] => 0
                | k :: r => tree_sum f k + go r
                end) ks)%Q
  end.

(** Pointwise comparison of two pairs of DP tables. *)
Definition tables_le (F1 : fdt) (D1 : dpt) (F2 : fdt) (D2 : dpt) : Prop :=
  (forall a b, treedists D1 a b <= treedists D2 a b)%Q /\
  (forall x y, fd F1 x y <= fd F2 x y)%Q.

(** A label distance whose costs against the empty label lie in [0, 1], as
    the 0/1 fallback [strdist] of [zss_json.py] does. *)
Definition unit_bounded (ld : json -> json -> Q) : Prop :=
  forall l, (0 <= ld empty_label l <= 1)%Q /\ (0 <= ld l empty_label <= 1)%Q.

(** * Proofs *)

(** ** [json_to_tree] *)

Module JsonTreeProof.
Import JsonTree.

Lemma spec_children_items v : spec_children v = map item_node (items v).
Proof.
  destruct v as [kvs|xs|s]; simpl.
  - rewrite map_map. reflexivity.
  - induction xs as [|e xs IH]; simpl; [reflexivity|].
    rewrite map_app, IH. f_equal.
    destruct e; simpl; try reflexivity. rewrite map_map. reflexivity.
  - reflexivity.
Qed.

Lemma push_items_items p acc kvs :
  push_items p acc kvs =
  fold_left (step_item p) (map (fun kv => (key kv.1, Some kv.2)) kvs) acc.
Proof.
  revert acc. induction kvs as [|[k v] kvs IH]; intros [σ st]; simpl; [reflexivity|].
  apply IH.
Qed.

Lemma expand_items σ st p v :
  expand σ st p v = fold_left (step_item p) (items v) (σ, st).
Proof.
  destruct v as [kvs|xs|s]; simpl.
  - apply push_items_items.
  - generalize (σ, st) as acc. induction xs as [|e xs IH]; intros acc; simpl; [reflexivity|].
    rewrite fold_left_app. destruct acc as [σ' st'].
    destruct e as [kvs|ys|s]; simpl.
    + rewrite push_items_items. apply IH.
    + apply IH.
    + apply IH.
  - reflexivity.
Qed.

Lemma step_items_spec p l ks its σ st :
  σ !! p = Some (mkCell l ks) ->
  fold_left (step_item p) its (σ, st) =
  (<[p := mkCell l (ks ++ seq (length σ) (length its))]> σ
     ++ map (fun it => mkCell it.1 []) its,
   pushes (length σ) its ++ st).
Proof.
  revert σ ks st. induction its as [|it its IH]; intros σ ks st Hp; simpl.
  - rewrite app_nil_r, app_nil_r, list_insert_id; done.
  - pose proof (lookup_lt_Some _ _ _ Hp) as Hlt.
    unfold addkid. rewrite (lookup_app_l_Some _ _ _ _ Hp).
    set (σ1 := <[p:=mkCell l (ks ++ [length σ])]> (σ ++ [mkCell it.1 []])).
    assert (H1 : σ1 !! p = Some (mkCell l (ks ++ [length σ]))).
    { apply list_lookup_insert_eq. rewrite length_app. simpl. lia. }
    assert (Hl1 : length σ1 = S (length σ)).
    { unfold σ1. rewrite length_insert, length_app. simpl. lia. }
    rewrite (IH σ1 _ _ H1), Hl1. unfold σ1.
    rewrite list_insert_insert_eq, insert_app_l by lia.
    rewrite <- !app_assoc. simpl.
    f_equal; destruct it.2; reflexivity.
Qed.

Lemma pushes_ids N its x w :
  In (x, w) (pushes N its) -> (N <= x < N + length its)%nat.
Proof.
  revert N. induction its as [|it its IH]; intros N H; simpl in *; [done|].
  apply in_app_or in H as [H|H].
  - apply IH in H. lia.
  - destruct it.2; simpl in H; [|done].
    destruct H as [H|H]; [injection H; intros; subst; lia|done].
Qed.

Lemma pushes_nodup N its : NoDup (map fst (pushes N its)).
Proof.
  revert N. induction its as [|it its IH]; intros N; simpl; [constructor|].
  rewrite map_app. apply NoDup_app. split; [apply IH|split].
  - intros x Hx. apply list_elem_of_In, in_map_iff in Hx as [[x' w] [Hx Hin]].
    simpl in Hx. subst x'. apply pushes_ids in Hin.
    destruct it.2; simpl; [|apply not_elem_of_nil].
    rewrite list_elem_of_singleton. lia.
  - destruct it.2; simpl; [apply NoDup_singleton|constructor].
Qed.

Lemma pending_app l1 l2 id :
  pending (l1 ++ l2) id =
  match pending l1 id with Some v => Some v | None => pending l2 id end.
Proof.
  induction l1 as [|[i v] l1 IH]; simpl; [reflexivity|].
  destruct (Nat.eqb i id); [reflexivity|apply IH].
Qed.

Lemma pending_In st id v : pending st id = Some v -> In (id, v) st.
Proof.
  induction st as [|[i w] st IH]; simpl; [done|].
  destruct (Nat.eqb_spec i id); [intros [= <-]; left; congruence|].
  intros H. right. auto.
Qed.

Lemma pending_notin st id : (forall w, ~ In (id, w) st) -> pending st id = None.
Proof.
  intros H. destruct (pending st id) eqn:E; [|done].
  exfalso. eapply H, pending_In, E.
Qed.

Lemma pending_pushes_out N its id :
  (id < N)%nat -> pending (pushes N its) id = None.
Proof.
  intros Hid. apply pending_notin. intros w Hin. apply pushes_ids in Hin. lia.
Qed.

Lemma pending_pushes_at N its k it :
  its !! k = Some it -> pending (pushes N its) (N + k) = it.2.
Proof.
  revert N k. induction its as [|it' its IH]; intros N k Hk; [done|].
  simpl. rewrite pending_app. destruct k as [|k].
  - simpl in Hk. injection Hk as <-.
    rewrite pending_pushes_out by lia.
    destruct it'.2; simpl; [|done]. rewrite Nat.add_0_r, Nat.eqb_refl. done.
  - simpl in Hk. rewrite <- Nat.add_succ_comm, (IH (S N) k Hk).
    destruct it.2; [done|]. destruct it'.2; simpl; [|done].
    replace (Nat.eqb N (S (N + k))) with false; [done|].
    symmetry. apply Nat.eqb_neq. lia.
Qed.

Lemma length_pushes N its : (length (pushes N its) <= length its)%nat.
Proof.
  revert N. induction its as [|it its IH]; intros N; simpl; [lia|].
  rewrite length_app. specialize (IH (S N)). destruct it.2; simpl; lia.
Qed.
Lemma measure_app l1 l2 : measure (l1 ++ l2) = (measure l1 + measure l2)%nat.
Proof. unfold measure. rewrite map_app. apply list_sum_app. Qed.

Lemma measure_pushes N its : measure (pushes N its) = isize its.
Proof.
  revert N. induction its as [|it its IH]; intros N; [reflexivity|].
  simpl. rewrite measure_app, IH. unfold isize. simpl.
  destruct it.2; simpl; unfold measure; simpl; lia.
Qed.

Lemma isize_items v : (isize (items v) < json_size v)%nat.
Proof.
  assert (Hd : forall kvs : list (string * json),
    isize (map (fun kv => (key kv.1, Some kv.2)) kvs) =
    list_sum (map (fun kv => json_size kv.2) kvs)).
  { intros kvs. unfold isize. rewrite map_map. reflexivity. }
  destruct v as [kvs|xs|sc]; simpl.
  - rewrite Hd. lia.
  - cut (isize (flat_map (fun e => match e with
        | JDict kvs => map (fun kv => (key kv.1, Some kv.2)) kvs
        | _ => [(e, None)] end) xs) <= list_sum (map json_size xs))%nat; [lia|].
    induction xs as [|e xs IH]; simpl; [unfold isize; simpl; lia|].
    unfold isize in *. rewrite map_app, list_sum_app.
    destruct e as [kvs|ys|sc]; simpl.
    + pose proof (Hd kvs) as H. unfold isize in H. rewrite H. lia.
    + lia.
    + lia.
  - unfold isize. simpl. lia.
Qed.

Lemma mapM_mono {A B} (f g : A -> option B) (l : list A) (ts : list B) :
  (forall x t, x ∈ l -> f x = Some t -> g x = Some t) ->
  mapM f l = Some ts -> mapM g l = Some ts.
Proof.
  intros Hfg Hf. apply mapM_Some in Hf. apply mapM_Some.
  apply Forall2_same_length_lookup in Hf as [Hlen Hf].
  apply Forall2_same_length_lookup. split; [done|].
  intros i x y Hx Hy. apply Hfg; [by eapply list_elem_of_lookup_2|]. eauto.
Qed.

Lemma mapM_seq (g : nat -> option node) N its :
  (forall k it, its !! k = Some it -> g (N + k)%nat = Some (item_node it)) ->
  mapM g (seq N (length its)) = Some (map item_node its).
Proof.
  revert N. induction its as [|it its IH]; intros N H; [reflexivity|].
  simpl. rewrite <- (Nat.add_0_r N), (H 0%nat it eq_refl), Nat.add_0_r. simpl.
  rewrite IH; [reflexivity|].
  intros k it' Hk. rewrite Nat.add_succ_comm. apply (H (S k)). exact Hk.
Qed.

Lemma wf_ids σ st i w : wf σ st -> In (i, w) st -> (i < length σ)%nat.
Proof.
  intros [_ Hk] Hin. destruct (Hk _ _ Hin) as [l Hl]. eapply lookup_lt_Some, Hl.
Qed.

Lemma lookup_map_list {A B} (g : A -> B) (l : list A) (i : nat) :
  map g l !! i = g <$> l !! i.
Proof. revert i. induction l as [|x l IH]; intros [|i]; simpl; auto. Qed.

Lemma readP_S σ st f id :
  readP σ st (S f) id =
  match σ !! id with
  | None => None
  | Some c =>
      match pending st id with
      | Some v => Some (Node (c_label c) (spec_children v))
      | None => Node (c_label c) <$> mapM (readP σ st f) (c_kids c)
      end
  end.
Proof. reflexivity. Qed.

Lemma expand_step σ p v rest :
  wf σ ((p, v) :: rest) ->
  wf (expand σ rest p v).1 (expand σ rest p v).2 /\
  length (expand σ rest p v).1 = (length σ + length (items v))%nat /\
  (length (expand σ rest p v).2 <= length (items v) + length rest)%nat /\
  (measure (expand σ rest p v).2 < json_size v + measure rest)%nat /\
  (forall f id t, readP σ ((p, v) :: rest) f id = Some t ->
     readP (expand σ rest p v).1 (expand σ rest p v).2 (S f) id = Some t).
Proof.
  intros Hwf. pose proof Hwf as [Hnd Hk].
  destruct (Hk p v (or_introl eq_refl)) as [l Hp].
  pose proof (lookup_lt_Some _ _ _ Hp) as Hplt.
  rewrite expand_items, (step_items_spec p l [] _ _ _ Hp). simpl fst; simpl snd.
  set (N := length σ) in *. set (its := items v).
  set (σ' := <[p := mkCell l (seq N (length its))]> σ
               ++ map (fun it => mkCell it.1 []) its).
  set (st' := pushes N its ++ rest).
  assert (Hrest : forall i w, In (i, w) rest -> (i < N)%nat /\ i <> p).
  { intros i w Hin. split.
    - eapply wf_ids; [exact Hwf|right; exact Hin].
    - simpl in Hnd. apply NoDup_cons in Hnd as [Hnin _]. intros ->. apply Hnin.
      apply list_elem_of_In, in_map_iff. exists (p, w). auto. }
  assert (L1 : forall id, (id < N)%nat -> id <> p -> σ' !! id = σ !! id).
  { intros id H1 H2. unfold σ'. rewrite lookup_app_l by (rewrite length_insert; lia).
    apply list_lookup_insert_ne; auto. }
  assert (L2 : σ' !! p = Some (mkCell l (seq N (length its)))).
  { unfold σ'. rewrite lookup_app_l by (rewrite length_insert; lia).
    apply list_lookup_insert_eq. lia. }
  assert (L3 : forall k it, its !! k = Some it ->
                 σ' !! (N + k)%nat = Some (mkCell it.1 [])).
  { intros k it Hit. unfold σ'.
    rewrite lookup_app_r by (rewrite length_insert; lia). rewrite length_insert.
    replace (N + k - length σ)%nat with k by (unfold N; lia).
    rewrite lookup_map_list, Hit. reflexivity. }
  assert (P1 : forall id, (id < N)%nat -> pending st' id = pending rest id).
  { intros id H. unfold st'. rewrite pending_app, pending_pushes_out by lia. reflexivity. }
  assert (P2 : forall k it, its !! k = Some it -> pending st' (N + k)%nat = it.2).
  { intros k it Hit. unfold st'. rewrite pending_app, (pending_pushes_at _ _ _ _ Hit).
    destruct it.2; [reflexivity|]. apply pending_notin.
    intros w Hin. apply Hrest in Hin. lia. }
  split; [|split; [|split; [|split]]].
  - split.
    + unfold st'. rewrite map_app. apply NoDup_app. split; [apply pushes_nodup|split].
      * intros x Hx Hx'.
        apply list_elem_of_In, in_map_iff in Hx as [[x1 w1] [Hx1 Hin1]].
        apply list_elem_of_In, in_map_iff in Hx' as [[x2 w2] [Hx2 Hin2]].
        simpl in *; subst. apply pushes_ids in Hin1. apply Hrest in Hin2. lia.
      * simpl in Hnd. apply NoDup_cons in Hnd as [_ Hnd]. exact Hnd.
    + intros i w Hin. unfold st' in Hin. apply in_app_or in Hin as [Hin|Hin].
      * pose proof (pushes_ids _ _ _ _ Hin) as Hr.
        destruct (lookup_lt_is_Some_2 its (i - N)) as [it Hit]; [lia|].
        exists it.1. replace i with (N + (i - N))%nat by lia. apply (L3 _ _ Hit).
      * destruct (Hrest _ _ Hin) as [H1 H2]. rewrite (L1 _ H1 H2).
        apply (Hk i w). right. exact Hin.
  - unfold σ'. rewrite length_app, length_insert, length_map. reflexivity.
  - unfold st'. rewrite length_app. pose proof (length_pushes N its). lia.
  - unfold st'. rewrite measure_app, measure_pushes.
    pose proof (isize_items v) as H. fold its in H. lia.
  - intros f. induction f as [|f IH]; intros id t H; [discriminate|].
    simpl in H. destruct (σ !! id) as [c|] eqn:Hid; [|discriminate].
    pose proof (lookup_lt_Some _ _ _ Hid) as Hidlt.
    destruct (Nat.eqb_spec p id) as [<-|Hne].
    + rewrite Hp in Hid. injection Hid as <-. injection H as <-.
      rewrite readP_S, L2.
      rewrite (pending_notin st' p).
      2: { intros w Hin. unfold st' in Hin. apply in_app_or in Hin as [Hin|Hin].
           - apply pushes_ids in Hin. lia.
           - apply Hrest in Hin as [_ ?]. done. }
      rewrite (mapM_seq _ N its).
      * simpl. rewrite spec_children_items. reflexivity.
      * intros k it Hit. rewrite readP_S, (L3 _ _ Hit), (P2 _ _ Hit).
        destruct it as [lbl [w|]]; reflexivity.
    + rewrite readP_S, (L1 _ Hidlt (not_eq_sym Hne)), Hid, (P1 _ Hidlt).
      destruct (pending rest id) as [w|] eqn:Hw; [exact H|].
      destruct (mapM (readP σ ((p, v) :: rest) f) (c_kids c)) as [ts|] eqn:Hts;
        [|discriminate].
      simpl in H. injection H as <-.
      rewrite (mapM_mono _ _ _ ts (fun x t _ Hx => IH x t Hx) Hts). reflexivity.
Qed.

Lemma json_size_pos v : (1 <= json_size v)%nat.
Proof. destruct v; simpl; lia. Qed.

Lemma run_inv fuel : forall σ st n T,
  wf σ st -> (n + length st <= length σ)%nat -> readP σ st (S n) 0 = Some T ->
  (measure st <= fuel)%nat ->
  exists n', (n' <= length (run fuel σ st))%nat /\
             readP (run fuel σ st) [] (S n') 0 = Some T.
Proof.
  induction fuel as [|fuel IH]; intros σ st n T Hwf Hlen HT Hm.
  - destruct st as [|[p v] st].
    + exists n. simpl in *. split; [lia|exact HT].
    + exfalso. unfold measure in Hm. simpl in Hm. pose proof (json_size_pos v). lia.
  - destruct st as [|[p v] rest].
    + exists n. simpl in *. split; [lia|exact HT].
    + destruct (expand_step σ p v rest Hwf) as (Hwf' & Hl & Hls & Hms & Hr).
      simpl run. destruct (expand σ rest p v) as [σ' st'] eqn:E. simpl in *.
      apply (IH σ' st' (S n) T Hwf').
      * lia.
      * apply Hr. exact HT.
      * unfold measure in *. simpl in Hm. lia.
Qed.

Lemma readP_nil σ f id : readP σ [] f id = read σ f id.
Proof.
  revert id. induction f as [|f IH]; intros id; [reflexivity|].
  rewrite readP_S. simpl. destruct (σ !! id) as [c|]; [|reflexivity].
  f_equal. apply mapM_ext. exact IH.
Qed.

Lemma read_mono σ f : forall f' id t,
  read σ f id = Some t -> (f <= f')%nat -> read σ f' id = Some t.
Proof.
  induction f as [|f IH]; intros f' id t H Hle; [discriminate|].
  destruct f' as [|f']; [lia|]. simpl in *.
  destruct (σ !! id) as [c|]; [|discriminate].
  destruct (mapM (read σ f) (c_kids c)) as [ts|] eqn:Hts; [|discriminate].
  rewrite (mapM_mono _ _ _ ts (fun x t _ Hx => IH f' x t Hx ltac:(lia)) Hts).
  exact H.
Qed.

Lemma json_to_tree_spec k v rest :
  json_to_tree (JDict ((k, v) :: rest)) = Some (Node (key k) (spec_children v)).
Proof.
  unfold json_to_tree.
  destruct (run_inv (json_size (JDict ((k, v) :: rest))) [mkCell (key k) []]
              [(0%nat, v)] 0 (Node (key k) (spec_children v))) as [n' [Hn' HT]].
  - split.
    + apply NoDup_singleton.
    + intros i w [H|[]]. injection H as <- <-. exists (key k). reflexivity.
  - simpl. lia.
  - reflexivity.
  - unfold measure. simpl. lia.
  - rewrite readP_nil in HT. eapply read_mono; [exact HT|lia].
Qed.

End JsonTreeProof.

(** Claim C5: for a root mapping with two or more keys, only the first key
    becomes the root; the result is the one of the mapping reduced to its
    first entry, so the other top-level keys leave no trace. *)
Theorem json_to_tree_first_key_only (k : string) (v : json)
    (rest : list (string * json)) (Hmany : rest <> []) :
  json_to_tree (JDict ((k, v) :: rest)) = json_to_tree (JDict [(k, v)]) /\
  exists t, json_to_tree (JDict ((k, v) :: rest)) = Some t /\ get_label t = key k.
Proof.
  rewrite !JsonTreeProof.json_to_tree_spec. split; [reflexivity|].
  eexists. split; reflexivity.
Qed.

(** Claim C6: below the root, sequence elements become direct children in
    positional order (a mapping element is flattened into one child per key,
    any other element is a leaf labelled by itself), each key of a mapping
    becomes a child labelled by the key, a terminal scalar becomes a single
    leaf, and children keep the input iteration order: [json_to_tree]
    returns exactly the tree [spec_children] describes. *)
Theorem json_to_tree_children (k : string) (v : json)
    (rest : list (string * json)) :
  json_to_tree (JDict ((k, v) :: rest)) = Some (Node (key k) (spec_children v)).
Proof. apply JsonTreeProof.json_to_tree_spec. Qed.

(** ** Properties of the engine *)

Lemma annotated_some (t : node) :
  AnnotatedTree (Some t) =
  Ok (mkAnnotated (post t 0).1 (post t 0).2 (keyroots_of (post t 0).2)).
Proof. simpl. destruct (post t 0). reflexivity. Qed.

Lemma count_nodes_some (t : node) : Nat.eqb (count_nodes (Some t)) 0 = false.
Proof. destruct t. reflexivity. Qed.

Lemma node_ind_list (P : node -> Prop)
    (H : forall l ks, Forall P ks -> P (Node l ks)) : forall t, P t.
Proof.
  fix IH 1. intros [l ks]. apply H. induction ks as [|k ks IHks]; constructor; auto.
Qed.

Lemma post_unfold (l : json) (ks : list node) (off : nat) :
  post (Node l ks) off =
  let '(ns, ls) := post_go post ks off in (ns ++ [Node l ks], ls ++ [off]).
Proof. reflexivity. Qed.

Lemma post_length (t : node) : forall off,
  length (post t off).1 = count_node t /\ length (post t off).2 = count_node t.
Proof.
  induction t as [l ks IH] using node_ind_list. intros off.
  rewrite post_unfold.
  assert (Hgo : forall o, length (post_go post ks o).1 = list_sum (map count_node ks) /\
                          length (post_go post ks o).2 = list_sum (map count_node ks)).
  { induction IH as [|k ks Hk _ IHks]; intros o; simpl; [auto|].
    destruct (post k o) as [n1 l1] eqn:E1.
    destruct (post_go post ks (o + length n1)) as [n2 l2] eqn:E2. simpl.
    specialize (Hk o). rewrite E1 in Hk. simpl in Hk.
    specialize (IHks (o + length n1)). rewrite E2 in IHks. simpl in IHks.
    rewrite !length_app. lia. }
  destruct (post_go post ks off) as [ns ls] eqn:E. specialize (Hgo off). rewrite E in Hgo.
  simpl in *. rewrite !length_app. simpl. lia.
Qed.

(** ** The CER engine and the shared engine

    A call of [distance_with_cer] either raises, or completes every cell; in
    the latter case each relabel cost it computed is the value
    [cer_relabel_value], so its tables are those of the shared engine run
    with that relabel cost. *)

Lemma treedist_cell_rel_local (ins rem : node -> Q) (r1 r2 : node -> node -> Q)
    (A B : annotated) (i j : nat) (acc : fdt * dpt) (x y : nat) :
  (Nat.eqb (lmd A i) (lmd A (x + lmd A i - 1)) &&
   Nat.eqb (lmd B j) (lmd B (y + lmd B j - 1)) = true ->
   r1 (nodeA A (x + lmd A i - 1)) (nodeA B (y + lmd B j - 1)) =
   r2 (nodeA A (x + lmd A i - 1)) (nodeA B (y + lmd B j - 1))) ->
  treedist_cell ins rem r1 A B i j acc x y = treedist_cell ins rem r2 A B i j acc x y.
Proof.
  intros H. destruct acc as [F D]. unfold treedist_cell, lineage_costs.
  destruct (Nat.eqb (lmd A i) (lmd A (x + lmd A i - 1)) &&
            Nat.eqb (lmd B j) (lmd B (y + lmd B j - 1))) eqn:E; [|reflexivity].
  rewrite (H eq_refl). reflexivity.
Qed.

Lemma cell_cer_ok (ins rem : node -> Q) (upd : node -> node -> Q)
    (cer : json -> json -> result Q) (A B : annotated) (i j : nat)
    (acc acc' : fdt * dpt) (x y : nat) :
  treedist_cell_cer ins rem upd cer A B i j acc x y = Ok acc' ->
  acc' = treedist_cell ins rem (cer_relabel_value upd cer) A B i j acc x y.
Proof.
  unfold treedist_cell_cer.
  destruct (Nat.eqb (lmd A i) (lmd A (x + lmd A i - 1)) &&
            Nat.eqb (lmd B j) (lmd B (y + lmd B j - 1))) eqn:E.
  - destruct (cer_relabel upd cer (nodeA A (x + lmd A i - 1)) (nodeA B (y + lmd B j - 1)))
      as [r|e] eqn:Er; intros H; [|discriminate].
    injection H as <-. apply treedist_cell_rel_local. intros _.
    unfold cer_relabel_value. rewrite Er. reflexivity.
  - intros H. injection H as <-. apply treedist_cell_rel_local.
    rewrite E. discriminate.
Qed.

Lemma cell_cer_err (ins rem : node -> Q) (upd : node -> node -> Q)
    (cer : json -> json -> result Q) (A B : annotated) (i j : nat)
    (acc : fdt * dpt) (x y : nat) (e : py_error) :
  treedist_cell_cer ins rem upd cer A B i j acc x y = Err e ->
  cer_relabel upd cer (nodeA A (x + lmd A i - 1)) (nodeA B (y + lmd B j - 1)) = Err e.
Proof.
  unfold treedist_cell_cer.
  destruct (_ && _); [|discriminate].
  destruct (cer_relabel _ _ _ _); congruence.
Qed.

Lemma cell_cer_defined (ins rem : node -> Q) (upd : node -> node -> Q)
    (cer : json -> json -> result Q) (A B : annotated) (i j : nat)
    (acc : fdt * dpt) (x y : nat) :
  (exists r, cer_relabel upd cer (nodeA A (x + lmd A i - 1)) (nodeA B (y + lmd B j - 1))
             = Ok r) ->
  treedist_cell_cer ins rem upd cer A B i j acc x y =
  Ok (treedist_cell ins rem (cer_relabel_value upd cer) A B i j acc x y).
Proof.
  intros [r Hr].
  destruct (treedist_cell_cer ins rem upd cer A B i j acc x y) as [acc'|e] eqn:E.
  - f_equal. apply (cell_cer_ok _ _ _ _ _ _ _ _ _ _ _ _ E).
  - apply cell_cer_err in E. congruence.
Qed.

Lemma fold_result_ok {X Y : Type} (f : X -> Y -> result X) (g : X -> Y -> X)
    (l : list Y) :
  (forall acc y acc', In y l -> f acc y = Ok acc' -> acc' = g acc y) ->
  forall acc r, fold_result f l acc = Ok r -> r = fold_left g l acc.
Proof.
  induction l as [|y l IH]; simpl; intros Hf acc r H.
  - injection H as <-. reflexivity.
  - destruct (f acc y) as [a|e] eqn:E; [|discriminate].
    rewrite (Hf acc y a (or_introl eq_refl) E) in H.
    apply (IH (fun acc y' acc' Hy => Hf acc y' acc' (or_intror Hy)) _ _ H).
Qed.

Lemma fold_result_all {X Y : Type} (f : X -> Y -> result X) (g : X -> Y -> X)
    (l : list Y) :
  (forall acc y, In y l -> f acc y = Ok (g acc y)) ->
  forall acc, fold_result f l acc = Ok (fold_left g l acc).
Proof.
  induction l as [|y l IH]; simpl; intros Hf acc; [reflexivity|].
  rewrite (Hf acc y (or_introl eq_refl)).
  apply (IH (fun acc y' Hy => Hf acc y' (or_intror Hy))).
Qed.


Lemma treedist_cer_ok (ins rem : node -> Q) (upd : node -> node -> Q)
    (cer : json -> json -> result Q) (A B : annotated) (D D' : dpt) (i j : nat) :
  treedist_cer ins rem upd cer A B D i j = Ok D' ->
  D' = treedist ins rem (cer_relabel_value upd cer) A B D i j.
Proof.
  unfold treedist_cer, treedist, treedist_tables.
  destruct (fold_result _ _ _) as [acc|e] eqn:E; intros H; [|discriminate].
  injection H as <-. f_equal. revert E.
  apply fold_result_ok. intros acc0 x acc' _.
  apply fold_result_ok. intros acc1 y acc'' _.
  apply cell_cer_ok.
Qed.

Lemma distance_tables_cer_ok (ins rem : node -> Q) (upd : node -> node -> Q)
    (cer : json -> json -> result Q) (A B : annotated) (D : dpt) :
  distance_tables_cer ins rem upd cer A B = Ok D ->
  D = distance_tables ins rem (cer_relabel_value upd cer) A B.
Proof.
  unfold distance_tables_cer, distance_tables.
  apply fold_result_ok. intros D0 i D1 _.
  apply fold_result_ok. intros D2 j D3 _.
  apply treedist_cer_ok.
Qed.

(** What a completed call of [distance_with_cer] returns. *)
Lemma distance_with_cer_ok (ins rem : node -> Q) (upd : node -> node -> Q)
    (cer : json -> json -> result Q) (ta tb : option node) (ro : bool) (v : pyval) :
  distance_with_cer ins rem upd cer ta tb ro = Ok v ->
  distance_core ins rem (cer_relabel_value upd cer) ta tb ro = Ok v.
Proof.
  unfold distance_with_cer, distance_core.
  destruct (AnnotatedTree ta) as [A|e]; [|discriminate].
  destruct (AnnotatedTree tb) as [B|e]; [|discriminate].
  destruct (distance_tables_cer ins rem upd cer A B) as [D|e] eqn:E; [|discriminate].
  apply distance_tables_cer_ok in E. subst D. exact (fun H => H).
Qed.

(** The cells of [treedist(i, j)] for a keyroot [i] read nodes of the
    tree. *)
Lemma post_lmds_bound (t : node) : forall off k v,
  (post t off).2 !! k = Some v -> off <= v <= off + k.
Proof.
  induction t as [l ks IH] using node_ind_list. intros off.
  rewrite post_unfold.
  assert (Hgo : forall o k v, (post_go post ks o).2 !! k = Some v -> o <= v <= o + k).
  { induction IH as [|c ks Hc _ IHks]; intros o; simpl.
    - intros k v H. rewrite lookup_nil in H. discriminate.
    - destruct (post c o) as [n1 l1] eqn:E1.
      destruct (post_go post ks (o + length n1)) as [n2 l2] eqn:E2. simpl.
      assert (Ln : length l1 = length n1).
      { pose proof (post_length c o) as [P1 P2]. rewrite E1 in P1, P2. simpl in *. lia. }
      intros k v Hk. apply lookup_app_Some in Hk as [Hk|[Hlen Hk]].
      + specialize (Hc o k v). rewrite E1 in Hc. apply Hc, Hk.
      + specialize (IHks (o + length n1) (k - length l1) v). rewrite E2 in IHks.
        specialize (IHks Hk). lia. }
  destruct (post_go post ks off) as [ns ls] eqn:E. simpl.
  intros k v Hk. apply lookup_app_Some in Hk as [Hk|[Hlen Hk]].
  - specialize (Hgo off k v). rewrite E in Hgo. apply Hgo, Hk.
  - apply list_lookup_singleton_Some in Hk as [_ <-]. lia.
Qed.

Lemma Forall_zip_fst {X Y : Type} (P : X -> Prop) (l1 : list X) (l2 : list Y) :
  Forall P l1 -> Forall (fun p => P p.1) (zip l1 l2).
Proof.
  intros H. revert l2. induction H as [|x l1 Hx _ IH]; intros [|y l2]; simpl;
    constructor; auto.
Qed.

Lemma keyroots_of_lt (ls : list nat) (i : nat) :
  In i (keyroots_of ls) -> i < length ls.
Proof.
  unfold keyroots_of.
  assert (Hgen : forall (ps : list (nat * nat)) (m : gmap nat nat),
    Forall (fun p : nat * nat => p.1 < length ls) ps ->
    (forall l v, m !! l = Some v -> v < length ls) ->
    forall l v, fold_left (fun (m : gmap nat nat) '(i, l) => <[l := i]> m) ps m !! l = Some v ->
      v < length ls).
  { induction ps as [|[k l'] ps IH]; intros m Hps Hm; simpl; [exact Hm|].
    apply Forall_cons in Hps as [Hk Hps]. apply IH; [exact Hps|].
    intros l v Hlv. destruct (decide (l = l')) as [->|Hne].
    - rewrite lookup_insert_eq in Hlv. injection Hlv as <-. exact Hk.
    - rewrite lookup_insert_ne in Hlv by congruence. apply (Hm l v Hlv). }
  intros Hi. apply list_elem_of_In in Hi.
  rewrite (merge_sort_Permutation Nat.le) in Hi.
  apply list_elem_of_In, in_map_iff in Hi as [[l v] [<- Hlv]].
  apply list_elem_of_In, elem_of_map_to_list in Hlv. simpl.
  refine (Hgen _ ∅ _ _ l v Hlv).
  - apply (Forall_zip_fst (fun k => k < length ls)), Forall_forall. intros k Hk.
    apply list_elem_of_In, in_seq in Hk. lia.
  - intros l' v' H. rewrite lookup_empty in H. discriminate.
Qed.

Lemma cell_node_in (t : node) (i x : nat) :
  let A := mkAnnotated (post t 0).1 (post t 0).2 (keyroots_of (post t 0).2) in
  In i (a_keyroots A) -> In x (seq 1 (i - lmd A i + 2 - 1)) ->
  In (get_label (nodeA A (x + lmd A i - 1))) (labels t).
Proof.
  intros A Hi Hx. apply keyroots_of_lt in Hi.
  apply in_seq in Hx.
  destruct (post_length t 0) as [L1 L2].
  destruct (lookup_lt_is_Some_2 (post t 0).2 i Hi) as [v Hv].
  pose proof (post_lmds_bound t 0 i v Hv) as Hb.
  assert (Hl : lmd A i = v) by (unfold lmd; simpl; apply nth_lookup_Some with (d := 0) in Hv; exact Hv).
  unfold labels, nodeA. apply in_map, nth_In. simpl. rewrite Hl in *. lia.
Qed.

Lemma distance_tables_cer_defined (ins rem : node -> Q) (upd : node -> node -> Q)
    (cer : json -> json -> result Q) (ta tb : node) :
  cer_defined cer ta tb ->
  let A := mkAnnotated (post ta 0).1 (post ta 0).2 (keyroots_of (post ta 0).2) in
  let B := mkAnnotated (post tb 0).1 (post tb 0).2 (keyroots_of (post tb 0).2) in
  distance_tables_cer ins rem upd cer A B =
  Ok (distance_tables ins rem (cer_relabel_value upd cer) A B).
Proof.
  intros Hdef A B. unfold distance_tables_cer, distance_tables.
  apply fold_result_all. intros D0 i Hi.
  apply fold_result_all. intros D1 j Hj.
  unfold treedist_cer, treedist, treedist_tables.
  rewrite (fold_result_all _ (fun acc x =>
      fold_left (fun acc y => treedist_cell ins rem (cer_relabel_value upd cer) A B i j acc x y)
        (seq 1 (fd_cols B j - 1)) acc)); [reflexivity|].
  intros acc x Hx. apply fold_result_all. intros acc' y Hy.
  apply cell_cer_defined. unfold cer_relabel.
  destruct (Qltb 0 (upd _ _)); [|eexists; reflexivity].
  destruct (Hdef (get_label (nodeA A (x + lmd A i - 1)))
                 (get_label (nodeA B (y + lmd B j - 1)))) as [c Hc].
  - apply (cell_node_in ta i x Hi Hx).
  - apply (cell_node_in tb j y Hj Hy).
  - rewrite Hc. eexists. reflexivity.
Qed.

(** When [cer] is defined on the labels, [distance_with_cer] completes. *)
Lemma distance_with_cer_defined (ins rem : node -> Q) (upd : node -> node -> Q)
    (cer : json -> json -> result Q) (ta tb : node) (ro : bool) :
  cer_defined cer ta tb ->
  distance_with_cer ins rem upd cer (Some ta) (Some tb) ro =
  distance_core ins rem (cer_relabel_value upd cer) (Some ta) (Some tb) ro.
Proof.
  intros Hdef. unfold distance_with_cer, distance_core. rewrite !annotated_some.
  rewrite (distance_tables_cer_defined ins rem upd cer ta tb Hdef). reflexivity.
Qed.


(** [tree_error_rate] in the CER mode, when it returns. *)
Lemma tree_error_rate_cer_ok (zss_strdist label_dist : json -> json -> Q)
    (cer : json -> json -> result Q) (ref hyp : node) (r : Q) :
  tree_error_rate zss_strdist label_dist cer (Some ref) (Some hyp) true false = Ok r ->
  exists d,
    distance_with_cer (ins_cost label_dist) (rem_cost label_dist) (upd_cost label_dist)
      cer (Some ref) (Some hyp) false = Ok (VNum d) /\
    r = (d / inject_Z (Z.of_nat (count_nodes (Some ref))))%Q.
Proof.
  unfold tree_error_rate.
  destruct (distance_with_cer _ _ _ _ _ _ _) as [v|e] eqn:E; [|discriminate].
  pose proof (distance_with_cer_ok _ _ _ _ _ _ _ _ E) as Ev.
  unfold distance_core in Ev. rewrite !annotated_some in Ev.
  injection Ev as <-. unfold py_div. rewrite count_nodes_some. intros H.
  injection H as <-. eexists. split; reflexivity.
Qed.

(** Claim C1: for a non-empty reference tree, [tree_error_rate] returns
    exactly the distance divided by [count_nodes(ref)]. In the plain mode
    ([simple_distance]) the distance is always returned. In the CER-weighted
    mode, whenever [distance_with_cer] returns a distance, the rate is that
    distance divided by [count_nodes(ref)]; when it raises, [tree_error_rate]
    raises the same error and returns nothing. *)
Theorem tree_error_rate_ratio (zss_strdist label_dist : json -> json -> Q)
    (cer : json -> json -> result Q) (ref hyp : node) :
  (exists d, simple_distance zss_strdist (Some ref) (Some hyp) = Ok (VNum d) /\
     tree_error_rate zss_strdist label_dist cer (Some ref) (Some hyp) false false
     = Ok (d / inject_Z (Z.of_nat (count_nodes (Some ref))))%Q) /\
  (forall v, distance_with_cer (ins_cost label_dist) (rem_cost label_dist)
       (upd_cost label_dist) cer (Some ref) (Some hyp) false = Ok v ->
     exists d, v = VNum d /\
     tree_error_rate zss_strdist label_dist cer (Some ref) (Some hyp) true false
     = Ok (d / inject_Z (Z.of_nat (count_nodes (Some ref))))%Q) /\
  (forall e, distance_with_cer (ins_cost label_dist) (rem_cost label_dist)
       (upd_cost label_dist) cer (Some ref) (Some hyp) false = Err e ->
     tree_error_rate zss_strdist label_dist cer (Some ref) (Some hyp) true false
     = Err e).
Proof.
  split; [|split].
  - unfold tree_error_rate, simple_distance, zss_distance, distance_core.
    rewrite !annotated_some. eexists. split; [reflexivity|].
    unfold py_div. rewrite count_nodes_some. reflexivity.
  - intros v Hv. unfold tree_error_rate. rewrite Hv. revert Hv.
    unfold distance_with_cer. rewrite !annotated_some.
    destruct (distance_tables_cer _ _ _ _ _ _); intros H; [|discriminate].
    injection H as <-. eexists. split; [reflexivity|].
    unfold py_div. rewrite count_nodes_some. reflexivity.
  - intros e He. unfold tree_error_rate. rewrite He. reflexivity.
Qed.

(** Claim C2: the relabel cost of [distance_with_cer] is the base update cost
    times the CER clamped to at most 1 when the base cost is positive (and
    an exception of [jiwer.cer] escapes); when the base cost is zero it is
    zero and does not depend on the CER at all; and it is the relabel cost
    with which a same-lineage cell of the DP is computed. *)
Theorem cer_relabel_weighting (update_cost : node -> node -> Q)
    (cer : json -> json -> result Q) (n1 n2 : node) :
  ((0 < update_cost n1 n2)%Q ->
     (forall c, cer (get_label n1) (get_label n2) = Ok c ->
        exists r, cer_relabel update_cost cer n1 n2 = Ok r /\
                  (r == update_cost n1 n2 * Qmin c 1)%Q) /\
     (forall e, cer (get_label n1) (get_label n2) = Err e ->
        cer_relabel update_cost cer n1 n2 = Err e)) /\
  ((update_cost n1 n2 == 0)%Q ->
     (exists r, cer_relabel update_cost cer n1 n2 = Ok r /\ (r == 0)%Q) /\
     forall cer' : json -> json -> result Q,
       cer_relabel update_cost cer' n1 n2 = cer_relabel update_cost cer n1 n2) /\
  (forall insert_cost remove_cost A B i j acc x y,
     Nat.eqb (lmd A i) (lmd A (x + lmd A i - 1)) &&
     Nat.eqb (lmd B j) (lmd B (y + lmd B j - 1)) = true ->
     treedist_cell_cer insert_cost remove_cost update_cost cer A B i j acc x y =
     match cer_relabel update_cost cer (nodeA A (x + lmd A i - 1))
             (nodeA B (y + lmd B j - 1)) with
     | Err e => Err e
     | Ok r => Ok (treedist_cell insert_cost remove_cost (fun _ _ => r) A B i j acc x y)
     end).
Proof.
  split; [|split].
  - intros Hpos. unfold cer_relabel, Qltb.
    destruct (Qle_bool (update_cost n1 n2) 0) eqn:E.
    { apply Qle_bool_iff in E. exfalso. apply (Qlt_not_le _ _ Hpos E). }
    simpl. split; [|intros e ->; reflexivity].
    intros c ->. eexists. split; [reflexivity|].
    apply Qmult_comp; [reflexivity|].
    unfold py_min. simpl. unfold Qltb. destruct (Qle_bool c 1) eqn:E2; simpl.
    + apply Qle_bool_iff in E2. symmetry. apply Q.min_l. exact E2.
    + assert (H : ~ (c <= 1)%Q) by (intros H; apply Qle_bool_iff in H; congruence).
      symmetry. apply Q.min_r. apply Qlt_le_weak, Qnot_le_lt, H.
  - intros Hz. assert (E : Qle_bool (update_cost n1 n2) 0 = true).
    { apply Qle_bool_iff. rewrite Hz. apply Qle_refl. }
    unfold cer_relabel, Qltb. rewrite E. simpl.
    split; [eexists; split; [reflexivity|exact Hz]|reflexivity].
  - intros insert_cost remove_cost A B i j acc x y H.
    unfold treedist_cell_cer. rewrite H. reflexivity.
Qed.

(** Claim C8 (as amended): there is no base case for an empty tree. An empty
    tree ([None], e.g. what [json_to_tree] returns for an empty mapping) on
    either side makes [AnnotatedTree] raise [AttributeError], so both
    distance functions and [tree_error_rate] fail instead of returning the
    size of the other tree. *)
Theorem empty_tree_raises (zss_strdist label_dist : json -> json -> Q)
    (cer : json -> json -> result Q)
    (t : node) (substring_bonus return_operations : bool) :
  simple_distance zss_strdist (Some t) None = Err AttributeError /\
  simple_distance zss_strdist None (Some t) = Err AttributeError /\
  distance_with_cer (ins_cost label_dist) (rem_cost label_dist)
    (upd_cost label_dist) cer (Some t) None return_operations = Err AttributeError /\
  distance_with_cer (ins_cost label_dist) (rem_cost label_dist)
    (upd_cost label_dist) cer None (Some t) return_operations = Err AttributeError /\
  tree_error_rate zss_strdist label_dist cer (Some t) None substring_bonus
    return_operations = Err AttributeError.
Proof.
  unfold tree_error_rate, simple_distance, zss_distance, distance_with_cer,
    distance_core.
  rewrite !annotated_some. repeat split; try reflexivity.
  destruct substring_bonus; reflexivity.
Qed.

(** Claim C9: a reference tree with zero nodes ([None], the only value
    [count_nodes] maps to 0) makes [tree_error_rate] fail with an error, for
    every hypothesis and in every mode. *)
Theorem tree_error_rate_empty_reference (zss_strdist label_dist : json -> json -> Q)
    (cer : json -> json -> result Q)
    (hyp : option node) (substring_bonus return_operations : bool) :
  count_nodes None = 0%nat /\
  tree_error_rate zss_strdist label_dist cer None hyp substring_bonus
    return_operations = Err AttributeError.
Proof. split; [reflexivity|]. destruct substring_bonus; reflexivity. Qed.


Lemma Qle_bool_false (a b : Q) : Qle_bool a b = false -> (b < a)%Q.
Proof.
  intros H. apply Qnot_le_lt. intros H'. apply Qle_bool_iff in H'. congruence.
Qed.

Lemma Qeq_bool_false (a b : Q) : Qeq_bool a b = false -> ~ (a == b)%Q.
Proof. intros H H'. apply Qeq_bool_iff in H'. congruence. Qed.

Ltac q_cases :=
  repeat match goal with
  | |- context [Qle_bool ?a ?b] =>
      let E := fresh "E" in destruct (Qle_bool a b) eqn:E
  | |- context [Qeq_bool ?a ?b] =>
      let E := fresh "E" in destruct (Qeq_bool a b) eqn:E
  end;
  simpl in *; try reflexivity;
  repeat match goal with
  | H : Qle_bool _ _ = true |- _ => apply Qle_bool_iff in H
  | H : Qle_bool _ _ = false |- _ => apply Qle_bool_false in H
  | H : Qeq_bool _ _ = true |- _ => apply Qeq_bool_iff in H
  | H : Qeq_bool _ _ = false |- _ => apply Qeq_bool_false in H
  end;
  exfalso;
  first [ lra | match goal with H : ~ (_ == _)%Q |- _ => apply H; lra end ].

(** [costs.index(min(costs))] on the three costs of a cell is the first
    position of a minimal cost. *)
Lemma py_index_py_min3 (c0 c1 c2 : Q) :
  py_index [c0; c1; c2] (py_min [c0; c1; c2]) = first_min [c0; c1; c2].
Proof. unfold py_min, py_index, first_min, first_index, Qltb. simpl. q_cases. Qed.

Lemma upd2_eq {T} (f : nat -> nat -> T) (a b : nat) (v : T) : upd2 f a b v a b = v.
Proof. unfold upd2. rewrite !Nat.eqb_refl. reflexivity. Qed.

(** Claim C3 (as amended): a cell [(x, y)] of [treedist(i, j)] is a true
    tree-edit-distance cell, the minimum of the remove, insert and relabel
    branches over adjacent cells, also stored in [treedists], exactly when
    BOTH left-most descendants agree: [Al[i] = Al[x+ioff]] and
    [Bl[j] = Bl[y+joff]]. Otherwise the third branch adds the memoized
    [treedists[x+ioff][y+joff]] to [fd[p][q]] at the boundary positions, and
    [treedists] is left unchanged. This holds for any relabel cost, in
    particular the [cer_relabel] of [distance_with_cer]. *)
Theorem treedist_cell_branches (insert_cost remove_cost : node -> Q)
    (relabel_cost : node -> node -> Q) (A B : annotated) (i j : nat)
    (F : fdt) (D : dpt) (x y : nat) :
  let li := lmd A i in
  let lj := lmd B j in
  let a := (x + li - 1)%nat in
  let b := (y + lj - 1)%nat in
  let n1 := nodeA A a in
  let n2 := nodeA B b in
  let r := treedist_cell insert_cost remove_cost relabel_cost A B i j (F, D) x y in
  (li = lmd A a -> lj = lmd B b ->
     fd (fst r) x y =
       py_min (lineage_costs insert_cost remove_cost relabel_cost F x y n1 n2) /\
     treedists (snd r) a b = fd (fst r) x y) /\
  (li <> lmd A a \/ lj <> lmd B b ->
     let p := py_idx (fd_rows A i) (Z.of_nat (lmd A a) - 1 - (Z.of_nat li - 1)) in
     let q := py_idx (fd_cols B j) (Z.of_nat (lmd B b) - 1 - (Z.of_nat lj - 1)) in
     fd (fst r) x y =
       py_min [(fd F (x - 1)%nat y + remove_cost n1)%Q;
               (fd F x (y - 1)%nat + insert_cost n2)%Q;
               (fd F p q + treedists D a b)%Q] /\
     snd r = D).
Proof.
  intros li lj a b n1 n2 r. subst r. unfold treedist_cell. fold li lj a b n1 n2.
  split.
  - intros Ha Hb. rewrite <- Ha, <- Hb, !Nat.eqb_refl. simpl.
    rewrite !upd2_eq. split; reflexivity.
  - intros Hn. destruct (Nat.eqb li (lmd A a) && Nat.eqb lj (lmd B b)) eqn:E.
    + apply andb_true_iff in E as [E1 E2]. apply Nat.eqb_eq in E1, E2.
      exfalso. destruct Hn; contradiction.
    + simpl. rewrite upd2_eq. split; reflexivity.
Qed.

(** Claim C4: when several costs of a cell are minimal, the operation list
    recorded for the cell is the one of the FIRST minimal cost in the order
    remove, insert, relabel/match (resp. subtree reuse), in both branches of
    the recurrence. *)
Theorem treedist_cell_tie_break (insert_cost remove_cost : node -> Q)
    (relabel_cost : node -> node -> Q) (A B : annotated) (i j : nat)
    (F : fdt) (D : dpt) (x y : nat) :
  let li := lmd A i in
  let lj := lmd B j in
  let a := (x + li - 1)%nat in
  let b := (y + lj - 1)%nat in
  let n1 := nodeA A a in
  let n2 := nodeA B b in
  let r := treedist_cell insert_cost remove_cost relabel_cost A B i j (F, D) x y in
  (li = lmd A a -> lj = lmd B b ->
     let k := first_min
       (lineage_costs insert_cost remove_cost relabel_cost F x y n1 n2) in
     pops (fst r) x y =
       (if Nat.eqb k 0 then pops F (x - 1)%nat y ++ [ORemove n1]
        else if Nat.eqb k 1 then pops F x (y - 1)%nat ++ [OInsert n2]
        else pops F (x - 1)%nat (y - 1)%nat ++
               [if Qeq_bool (fd (fst r) x y) (fd F (x - 1)%nat (y - 1)%nat)
                then OMatch n1 n2 else OUpdate n1 n2]) /\
     operations (snd r) a b = pops (fst r) x y) /\
  (li <> lmd A a \/ lj <> lmd B b ->
     let p := py_idx (fd_rows A i) (Z.of_nat (lmd A a) - 1 - (Z.of_nat li - 1)) in
     let q := py_idx (fd_cols B j) (Z.of_nat (lmd B b) - 1 - (Z.of_nat lj - 1)) in
     let k := first_min (reuse_costs insert_cost remove_cost F D x y p q a b n1 n2) in
     pops (fst r) x y =
       (if Nat.eqb k 0 then pops F (x - 1)%nat y ++ [ORemove n1]
        else if Nat.eqb k 1 then pops F x (y - 1)%nat ++ [OInsert n2]
        else pops F p q ++ operations D a b)).
Proof.
  intros li lj a b n1 n2 r. subst r. unfold treedist_cell. fold li lj a b n1 n2.
  split.
  - intros Ha Hb. rewrite <- Ha, <- Hb, !Nat.eqb_refl.
    unfold lineage_costs. rewrite py_index_py_min3. cbn [andb fst snd pops fd operations].
    rewrite !upd2_eq. split; reflexivity.
  - intros Hn. destruct (Nat.eqb li (lmd A a) && Nat.eqb lj (lmd B b)) eqn:E.
    + apply andb_true_iff in E as [E1 E2]. apply Nat.eqb_eq in E1, E2.
      exfalso. destruct Hn; contradiction.
    + unfold reuse_costs. rewrite py_index_py_min3. cbn [fst snd pops fd operations].
      rewrite upd2_eq. reflexivity.
Qed.

(** Counterexample to claim C3 as worded: the left-most descendant of [x]'s
    node equalling that of [i] is not enough. Comparing [{"a": "a"}] with
    [{"a": ["a", "a"]}] under unit costs, in keyroot pair [(1, 2)], cell
    [(2, 2)] has [Al[1] = Al[1]], yet [fd[2][2] = 2] while the relabel
    formula over the adjacent cells gives [0] (node [y + joff = 1] is a leaf
    with its own left-most descendant). *)
Lemma treedist_cell_lineage_needs_both_lmds :
  let ld := strdist_fallback in
  let ins := ins_cost ld in
  let rem := rem_cost ld in
  let rel := cer_relabel_value (upd_cost ld)
               (jiwer_cer (fun l1 l2 => Ok (strdist_fallback l1 l2))) in
  match AnnotatedTree (json_to_tree (JDict [("a"%string, JScalar (SStr "a"%string))])),
        AnnotatedTree (json_to_tree
          (JDict [("a"%string, JList [JScalar (SStr "a"%string); JScalar (SStr "a"%string)])])) with
  | Ok A, Ok B =>
      let D := treedist ins rem rel A B (mkD (fun _ _ => 0%Q) (fun _ _ => [])) 1 1 in
      let F := fst (treedist_tables ins rem rel A B D 1 2) in
      a_keyroots A = [1%nat] /\ a_keyroots B = [1%nat; 2%nat] /\
      lmd A 1 = lmd A (2 + lmd A 1 - 1) /\
      (fd F 2 2 == 2)%Q /\
      (py_min (lineage_costs ins rem rel F 2 2 (nodeA A 1)
                 (nodeA B (2 + lmd B 2 - 1))) == 0)%Q
  | _, _ => False
  end.
Proof. vm_compute. repeat split; reflexivity. Qed.

(** Counterexample to claim C8 as worded: a one-node reference
    [{"a": ...}] leaf against an empty hypothesis yields neither distance 1
    nor error rate 1 but an [AttributeError]. *)
Lemma single_node_vs_empty_tree :
  let t := Node (key "a"%string) [] in
  simple_distance strdist_fallback (Some t) None <> Ok (VNum 1) /\
  tree_error_rate strdist_fallback strdist_fallback
    (jiwer_cer (fun l1 l2 => Ok (strdist_fallback l1 l2)))
    (Some t) None false false <> Ok 1%Q.
Proof. simpl. split; discriminate. Qed.

(** The witness of claim C5: a mapping with two keys. *)
Lemma json_to_tree_first_key_only_witness :
  [("b"%string, JScalar (SNum 2))] <> [] /\
  json_to_tree (JDict [("a"%string, JScalar (SNum 1)); ("b"%string, JScalar (SNum 2))]) =
    json_to_tree (JDict [("a"%string, JScalar (SNum 1))]) /\
  exists t, json_to_tree (JDict [("a"%string, JScalar (SNum 1));
                                 ("b"%string, JScalar (SNum 2))]) = Some t /\
            get_label t = key "a"%string.
Proof.
  assert (H : [("b"%string, JScalar (SNum 2))] <> []) by discriminate.
  split; [exact H|]. exact (json_to_tree_first_key_only "a" (JScalar (SNum 1)) _ H).
Defined.

(** ** The distance of a tree to itself *)




Lemma py_min_fold_le (r : list Q) (m : Q) :
  (fold_left (fun m x => if Qltb x m then x else m) r m <= m)%Q /\
  Forall (fun c => fold_left (fun m x => if Qltb x m then x else m) r m <= c)%Q r.
Proof.
  revert m. induction r as [|c r IH]; intros m; simpl.
  - split; [apply Qle_refl|constructor].
  - destruct (Qltb c m) eqn:E; unfold Qltb in E.
    + destruct (Qle_bool m c) eqn:E'; [discriminate|].
      apply Qle_bool_false in E'. destruct (IH c) as [H1 H2].
      split; [lra|]. constructor; [exact H1|exact H2].
    + destruct (Qle_bool m c) eqn:E'; [|discriminate].
      apply Qle_bool_iff in E'. destruct (IH m) as [H1 H2].
      split; [exact H1|]. constructor; [lra|exact H2].
Qed.

Lemma py_min_fold_in (r : list Q) (m : Q) :
  fold_left (fun m x => if Qltb x m then x else m) r m = m \/
  In (fold_left (fun m x => if Qltb x m then x else m) r m) r.
Proof.
  revert m. induction r as [|c r IH]; intros m; simpl; [auto|].
  destruct (Qltb c m).
  - destruct (IH c) as [H|H]; right; [left; symmetry; exact H|right; exact H].
  - destruct (IH m) as [H|H]; [left; exact H|right; right; exact H].
Qed.

Lemma py_min_le (cs : list Q) (c : Q) : In c cs -> (py_min cs <= c)%Q.
Proof.
  destruct cs as [|c0 r]; [intros []|]. simpl. intros [<-|Hc].
  - apply py_min_fold_le.
  - destruct (py_min_fold_le r c0) as [_ H]. rewrite Forall_forall in H.
    apply H, list_elem_of_In, Hc.
Qed.


Lemma fold_left_invariant {X Y : Type} (P : X -> Prop) (R : Y -> Prop)
    (f : X -> Y -> X) (l : list Y) (x0 : X) :
  P x0 -> Forall R l -> (forall x y, P x -> R y -> P (f x y)) ->
  P (fold_left f l x0).
Proof.
  intros H0 Hl Hf. revert x0 H0. induction Hl as [|y l Hy Hl IH]; intros x0 H0;
    simpl; [exact H0|]. apply IH, Hf; assumption.
Qed.

Lemma Forall_seq_pos (k : nat) : Forall (fun x => 1 <= x) (seq 1 k).
Proof. apply Forall_forall. intros x Hx. apply list_elem_of_In, in_seq in Hx. lia. Qed.

Lemma treedist_cell_tables (insert_cost remove_cost : node -> Q)
    (relabel_cost : node -> node -> Q) (A B : annotated) (i j : nat)
    (F : fdt) (D : dpt) (x y : nat) :
  let li := lmd A i in
  let lj := lmd B j in
  let a := (x + li - 1)%nat in
  let b := (y + lj - 1)%nat in
  let n1 := nodeA A a in
  let n2 := nodeA B b in
  let p := py_idx (fd_rows A i) (Z.of_nat (lmd A a) - 1 - (Z.of_nat li - 1)) in
  let q := py_idx (fd_cols B j) (Z.of_nat (lmd B b) - 1 - (Z.of_nat lj - 1)) in
  let r := treedist_cell insert_cost remove_cost relabel_cost A B i j (F, D) x y in
  if Nat.eqb li (lmd A a) && Nat.eqb lj (lmd B b) then
    fd (fst r) = upd2 (fd F) x y
      (py_min (lineage_costs insert_cost remove_cost relabel_cost F x y n1 n2)) /\
    treedists (snd r) = upd2 (treedists D) a b
      (py_min (lineage_costs insert_cost remove_cost relabel_cost F x y n1 n2))
  else
    fd (fst r) = upd2 (fd F) x y
      (py_min (reuse_costs insert_cost remove_cost F D x y p q a b n1 n2)) /\
    snd r = D.
Proof.
  intros li lj a b n1 n2 p q r. subst r. unfold treedist_cell. fold li lj a b n1 n2.
  destruct (Nat.eqb li (lmd A a) && Nat.eqb lj (lmd B b)); split; reflexivity.
Qed.

Section SelfDistance.

Variables (ins rem : node -> Q) (rel : node -> node -> Q) (A : annotated).
Hypothesis Hins : forall n, (0 <= ins n)%Q.
Hypothesis Hrem : forall n, (0 <= rem n)%Q.
Hypothesis Hrel : forall n1 n2, (0 <= rel n1 n2)%Q.
Hypothesis Hrel0 : forall n, (rel n n == 0)%Q.
Hypothesis Hkr : forall i j, In i (a_keyroots A) -> In j (a_keyroots A) ->
  lmd A i = lmd A j -> i = j.





End SelfDistance.
















(** * Further properties of the code *)

Lemma fold_left_invariant2 {X1 X2 Y : Type} (R : X1 -> X2 -> Prop) (Qy : Y -> Prop)
    (f : X1 -> Y -> X1) (g : X2 -> Y -> X2) (l : list Y) (x1 : X1) (x2 : X2) :
  R x1 x2 -> Forall Qy l -> (forall a b y, R a b -> Qy y -> R (f a y) (g b y)) ->
  R (fold_left f l x1) (fold_left g l x2).
Proof.
  intros H0 Hl Hf. revert x1 x2 H0. induction Hl as [|y l Hy Hl IH]; intros x1 x2 H0;
    simpl; [exact H0|]. apply IH, Hf; assumption.
Qed.

Lemma Forall2_In_r {X Y} (R : X -> Y -> Prop) (l1 : list X) (l2 : list Y) (y : Y) :
  Forall2 R l1 l2 -> In y l2 -> exists x, In x l1 /\ R x y.
Proof.
  induction 1 as [|x y' l1 l2 Hxy _ IH]; [intros []|]. intros [<-|Hin].
  - exists x. split; [left; reflexivity|exact Hxy].
  - destruct (IH Hin) as [x' [Hx' Hr]]. exists x'. split; [right; exact Hx'|exact Hr].
Qed.

Lemma py_min_in (cs : list Q) : cs <> [] -> In (py_min cs) cs.
Proof.
  destruct cs as [|c r]; [congruence|]. intros _. simpl.
  destruct (py_min_fold_in r c) as [->|H]; [left; reflexivity|right; exact H].
Qed.

Lemma py_min_mono (l1 l2 : list Q) : Forall2 Qle l1 l2 -> (py_min l1 <= py_min l2)%Q.
Proof.
  intros H. destruct l2 as [|c r].
  - inversion H. apply Qle_refl.
  - destruct (Forall2_In_r _ _ _ _ H (py_min_in (c :: r) ltac:(discriminate)))
      as [x [Hx Hle]].
    apply Qle_trans with x; [apply py_min_le, Hx|exact Hle].
Qed.

Section NonNegative.

Variables (ins rem : node -> Q) (rel : node -> node -> Q) (A B : annotated).
Hypothesis Hins : forall n, (0 <= ins n)%Q.
Hypothesis Hrem : forall n, (0 <= rem n)%Q.
Hypothesis Hrel : forall n1 n2, (0 <= rel n1 n2)%Q.




End NonNegative.

Section Monotone.

Variables (ins1 rem1 ins2 rem2 : node -> Q) (rel1 rel2 : node -> node -> Q).
Variables (A B : annotated).
Hypothesis Hins : forall n, (ins1 n <= ins2 n)%Q.
Hypothesis Hrem : forall n, (rem1 n <= rem2 n)%Q.
Hypothesis Hrel : forall n1 n2, (rel1 n1 n2 <= rel2 n1 n2)%Q.

Lemma mono_cell (i j : nat) (F1 F2 : fdt) (D1 D2 : dpt) (x y : nat) :
  tables_le F1 D1 F2 D2 ->
  tables_le (fst (treedist_cell ins1 rem1 rel1 A B i j (F1, D1) x y))
            (snd (treedist_cell ins1 rem1 rel1 A B i j (F1, D1) x y))
            (fst (treedist_cell ins2 rem2 rel2 A B i j (F2, D2) x y))
            (snd (treedist_cell ins2 rem2 rel2 A B i j (F2, D2) x y)).
Proof.
  intros [HD HF].
  pose proof (treedist_cell_tables ins1 rem1 rel1 A B i j F1 D1 x y) as HT1.
  pose proof (treedist_cell_tables ins2 rem2 rel2 A B i j F2 D2 x y) as HT2.
  cbv zeta in HT1, HT2.
  set (r1 := treedist_cell ins1 rem1 rel1 A B i j (F1, D1) x y) in *.
  set (r2 := treedist_cell ins2 rem2 rel2 A B i j (F2, D2) x y) in *.
  assert (Hadd : forall u1 u2 w1 w2, (u1 <= u2)%Q -> (w1 <= w2)%Q -> (u1 + w1 <= u2 + w2)%Q)
    by (intros; lra).
  destruct (_ && _); destruct HT1 as [HTf1 HTd1]; destruct HT2 as [HTf2 HTd2].
  - assert (Hv : (py_min (lineage_costs ins1 rem1 rel1 F1 x y
        (nodeA A (x + lmd A i - 1)) (nodeA B (y + lmd B j - 1))) <=
      py_min (lineage_costs ins2 rem2 rel2 F2 x y
        (nodeA A (x + lmd A i - 1)) (nodeA B (y + lmd B j - 1))))%Q).
    { apply py_min_mono. unfold lineage_costs. repeat constructor; apply Hadd; auto. }
    split; intros; [rewrite HTd1, HTd2|rewrite HTf1, HTf2]; unfold upd2;
      (destruct (_ && _); [exact Hv|auto]).
  - split; [rewrite HTd1, HTd2; exact HD|]. intros x' y'. rewrite HTf1, HTf2. unfold upd2.
    destruct (_ && _); [|auto]. apply py_min_mono. unfold reuse_costs.
    repeat constructor; apply Hadd; auto.
Qed.

Lemma mono_init (i j : nat) :
  forall x y, (fd (treedist_init ins1 rem1 A B i j) x y <=
               fd (treedist_init ins2 rem2 A B i j) x y)%Q.
Proof.
  unfold treedist_init.
  apply (fold_left_invariant2 (fun F1 F2 : fdt => forall x y, fd F1 x y <= fd F2 x y)%Q
    (fun _ => True)); [| apply Forall_true; auto |].
  - apply (fold_left_invariant2 (fun F1 F2 : fdt => forall x y, fd F1 x y <= fd F2 x y)%Q
      (fun _ => True)); [| apply Forall_true; auto |].
    + intros; simpl; apply Qle_refl.
    + intros F1 F2 x H _ x' y'. simpl. unfold upd2. destruct (_ && _); [|apply H].
      pose proof (H (x - 1)%nat 0%nat). pose proof (Hrem (nodeA A (x + lmd A i - 1))). lra.
  - intros F1 F2 y H _ x' y'. simpl. unfold upd2. destruct (_ && _); [|apply H].
    pose proof (H 0%nat (y - 1)%nat). pose proof (Hins (nodeA B (y + lmd B j - 1))). lra.
Qed.

Lemma mono_distance_tables :
  forall a b, (treedists (distance_tables ins1 rem1 rel1 A B) a b <=
               treedists (distance_tables ins2 rem2 rel2 A B) a b)%Q.
Proof.
  unfold distance_tables.
  apply (fold_left_invariant2 (fun D1 D2 : dpt => forall a b, treedists D1 a b <= treedists D2 a b)%Q
    (fun _ => True)); [intros; apply Qle_refl|apply Forall_true; auto|].
  intros D1 D2 i HD _.
  apply (fold_left_invariant2 (fun D1 D2 : dpt => forall a b, treedists D1 a b <= treedists D2 a b)%Q
    (fun _ => True)); [exact HD|apply Forall_true; auto|].
  intros E1 E2 j HE _. unfold treedist, treedist_tables.
  cut (forall acc1 acc2, tables_le (fst acc1) (snd acc1) (fst acc2) (snd acc2) ->
    tables_le
      (fst (fold_left (fun acc x =>
        fold_left (fun acc y => treedist_cell ins1 rem1 rel1 A B i j acc x y)
          (seq 1 (fd_cols B j - 1)) acc) (seq 1 (fd_rows A i - 1)) acc1))
      (snd (fold_left (fun acc x =>
        fold_left (fun acc y => treedist_cell ins1 rem1 rel1 A B i j acc x y)
          (seq 1 (fd_cols B j - 1)) acc) (seq 1 (fd_rows A i - 1)) acc1))
      (fst (fold_left (fun acc x =>
        fold_left (fun acc y => treedist_cell ins2 rem2 rel2 A B i j acc x y)
          (seq 1 (fd_cols B j - 1)) acc) (seq 1 (fd_rows A i - 1)) acc2))
      (snd (fold_left (fun acc x =>
        fold_left (fun acc y => treedist_cell ins2 rem2 rel2 A B i j acc x y)
          (seq 1 (fd_cols B j - 1)) acc) (seq 1 (fd_rows A i - 1)) acc2))).
  { intros H. apply (H (_, E1) (_, E2)). split; [exact HE|apply mono_init]. }
  intros acc1 acc2 H0.
  apply (fold_left_invariant2 (fun a1 a2 : fdt * dpt =>
      tables_le (fst a1) (snd a1) (fst a2) (snd a2)) (fun _ => True));
    [exact H0|apply Forall_true; auto|].
  intros a1 a2 x Ha _.
  apply (fold_left_invariant2 (fun a1 a2 : fdt * dpt =>
      tables_le (fst a1) (snd a1) (fst a2) (snd a2)) (fun _ => True));
    [exact Ha|apply Forall_true; auto|].
  intros [G1 K1] [G2 K2] y Hb _. apply mono_cell, Hb.
Qed.

End Monotone.

(** Extra X1. [json_to_tree] returns [None] exactly when its argument is not a mapping or is an empty mapping; every non-empty mapping yields a tree. *)
Theorem json_to_tree_none (j : json) :
  json_to_tree j = None <-> match j with JDict (_ :: _) => False | _ => True end.
Proof.
  destruct j as [[|[k v] rest]|xs|s]; try (simpl; split; auto; fail).
  rewrite JsonTreeProof.json_to_tree_spec. split; [discriminate|intros []].
Qed.

(** Extra X2. A root key whose value is a sequence without mappings gets one leaf child per element, in order, labelled by the element itself: a nested sequence is not descended into but becomes a single leaf labelled by the whole sequence. A root key whose value is an empty mapping gets no child at all. *)
Theorem json_to_tree_flat_list (k : string) (xs : list json) (rest : list (string * json))
    (Hnd : Forall (fun e => match e with JDict _ => False | _ => True end) xs) :
  json_to_tree (JDict ((k, JList xs) :: rest)) =
    Some (Node (key k) (map (fun e => Node e []) xs)) /\
  json_to_tree (JDict ((k, JDict []) :: rest)) = Some (Node (key k) []).
Proof.
  rewrite !JsonTreeProof.json_to_tree_spec. split; [|reflexivity].
  do 2 f_equal. simpl. induction Hnd as [|e xs He _ IH]; [reflexivity|].
  simpl. rewrite IH. destruct e; [contradiction|reflexivity|reflexivity].
Qed.

Lemma json_to_tree_flat_list_witness :
  Forall (fun e => match e with JDict _ => False | _ => True end)
    [JScalar (SStr "b"); JList [JScalar (SNum 1); JScalar (SNum 2)]] /\
  json_to_tree (JDict [("a"%string, JList [JScalar (SStr "b");
                         JList [JScalar (SNum 1); JScalar (SNum 2)]])]) =
    Some (Node (key "a") [Node (JScalar (SStr "b")) [];
                          Node (JList [JScalar (SNum 1); JScalar (SNum 2)]) []]).
Proof.
  assert (H : Forall (fun e => match e with JDict _ => False | _ => True end)
    [JScalar (SStr "b"); JList [JScalar (SNum 1); JScalar (SNum 2)]])
    by (repeat constructor).
  split; [exact H|]. exact (proj1 (json_to_tree_flat_list "a" _ [] H)).
Defined.

(** Extra X3. For every tree, [AnnotatedTree] succeeds and its [nodes] and [lmds] arrays, the dimensions of the [treedists] table of [distance_with_cer], both have [count_nodes] entries: the node count that [tree_error_rate] divides by is the number of rows of the table. *)
Theorem count_nodes_annotated (t : node) :
  exists A, AnnotatedTree (Some t) = Ok A /\
    length (a_nodes A) = count_nodes (Some t) /\
    length (a_lmds A) = count_nodes (Some t).
Proof.
  rewrite annotated_some. eexists. split; [reflexivity|]. simpl.
  apply post_length.
Qed.


Lemma py_div_mono (d1 d2 : Q) (n : nat) :
  (d1 <= d2)%Q -> Nat.eqb n 0 = false ->
  exists r1 r2, py_div (VNum d1) n = Ok r1 /\ py_div (VNum d2) n = Ok r2 /\ (r1 <= r2)%Q.
Proof.
  intros Hd Hn. unfold py_div. rewrite Hn. do 2 eexists. split; [reflexivity|].
  split; [reflexivity|]. apply Qmult_le_compat_r; [exact Hd|].
  apply Qinv_le_0_compat. unfold Qle. simpl. lia.
Qed.

Lemma distance_core_some (ins rem : node -> Q) (rel : node -> node -> Q) (ta tb : node) :
  let A := mkAnnotated (post ta 0).1 (post ta 0).2 (keyroots_of (post ta 0).2) in
  let B := mkAnnotated (post tb 0).1 (post tb 0).2 (keyroots_of (post tb 0).2) in
  distance_core ins rem rel (Some ta) (Some tb) false =
  Ok (VNum (treedists (distance_tables ins rem rel A B)
              (length (a_nodes A) - 1) (length (a_nodes B) - 1))).
Proof. unfold distance_core. rewrite !annotated_some. reflexivity. Qed.




(** Extra X5. The distance is monotone in the cost functions: if the insert, remove and update costs are pointwise at most other ones, the distance computed with them is at most the one computed with the others. *)
Theorem distance_core_monotone (ins1 rem1 ins2 rem2 : node -> Q)
    (rel1 rel2 : node -> node -> Q)
    (Hins : forall n, (ins1 n <= ins2 n)%Q) (Hrem : forall n, (rem1 n <= rem2 n)%Q)
    (Hrel : forall n1 n2, (rel1 n1 n2 <= rel2 n1 n2)%Q) (ta tb : node) :
  exists d1 d2,
    distance_core ins1 rem1 rel1 (Some ta) (Some tb) false = Ok (VNum d1) /\
    distance_core ins2 rem2 rel2 (Some ta) (Some tb) false = Ok (VNum d2) /\
    (d1 <= d2)%Q.
Proof.
  rewrite !distance_core_some. do 2 eexists. split; [reflexivity|]. split; [reflexivity|].
  apply mono_distance_tables; assumption.
Qed.

Lemma distance_core_monotone_witness :
  (forall n : node, (0 <= 1)%Q) /\
  exists d1 d2,
    distance_core (fun _ => 0%Q) (fun _ => 0%Q) (fun _ _ => 0%Q)
      (Some (Node (key "a") [])) (Some (Node (key "b") [])) false = Ok (VNum d1) /\
    distance_core (fun _ => 1%Q) (fun _ => 1%Q) (fun _ _ => 1%Q)
      (Some (Node (key "a") [])) (Some (Node (key "b") [])) false = Ok (VNum d2) /\
    (d1 <= d2)%Q.
Proof.
  assert (H : forall n : node, (0 <= 1)%Q) by (intros; lra).
  split; [exact H|].
  exact (distance_core_monotone (fun _ => 0%Q) (fun _ => 0%Q) (fun _ => 1%Q) (fun _ => 1%Q)
    (fun _ _ => 0%Q) (fun _ _ => 1%Q) H H (fun n1 _ => H n1) _ _).
Defined.

Lemma cer_relabel_value_le (update_cost : node -> node -> Q)
    (cer : json -> json -> result Q) (n1 n2 : node) :
  (cer_relabel_value update_cost cer n1 n2 <= update_cost n1 n2)%Q.
Proof.
  unfold cer_relabel_value, cer_relabel, Qltb.
  destruct (Qle_bool (update_cost n1 n2) 0) eqn:E; simpl; [apply Qle_refl|].
  apply Qle_bool_false in E.
  destruct (cer (get_label n1) (get_label n2)) as [c|e]; [|lra].
  assert (Hm : (py_min [c; 1] <= 1)%Q) by (apply py_min_le; right; left; reflexivity).
  set (m := py_min _) in *.
  apply Qle_trans with (update_cost n1 n2 * 1)%Q.
  - apply Qmult_le_l; [exact E|exact Hm].
  - rewrite Qmult_1_r. apply Qle_refl.
Qed.

(** Extra X6. With the same label distance, a CER-weighted distance, when returned, never exceeds the plain distance, and so a tree error rate with [substring_bonus=True], when returned, never exceeds the one with [substring_bonus=False]; no hypothesis on the CER is needed, since the weight is clamped to at most 1 and only applied to positive costs. *)
Theorem cer_mode_le_plain (label_dist : json -> json -> Q) (cer : json -> json -> result Q)
    (ref hyp : node) :
  (forall d1,
     distance_with_cer (ins_cost label_dist) (rem_cost label_dist)
       (upd_cost label_dist) cer (Some ref) (Some hyp) false = Ok (VNum d1) ->
     exists d2, simple_distance label_dist (Some ref) (Some hyp) = Ok (VNum d2) /\
     (d1 <= d2)%Q) /\
  (forall r1,
     tree_error_rate label_dist label_dist cer (Some ref) (Some hyp) true false = Ok r1 ->
     exists r2,
     tree_error_rate label_dist label_dist cer (Some ref) (Some hyp) false false = Ok r2 /\
     (r1 <= r2)%Q).
Proof.
  assert (H : forall d1,
     distance_with_cer (ins_cost label_dist) (rem_cost label_dist)
       (upd_cost label_dist) cer (Some ref) (Some hyp) false = Ok (VNum d1) ->
     exists d2, simple_distance label_dist (Some ref) (Some hyp) = Ok (VNum d2) /\
     (d1 <= d2)%Q).
  { intros d1 Hd. apply distance_with_cer_ok in Hd. rewrite distance_core_some in Hd.
    injection Hd as <-.
    unfold simple_distance, zss_distance. rewrite distance_core_some.
    eexists. split; [reflexivity|].
    apply mono_distance_tables; intros; [apply Qle_refl|apply Qle_refl|].
    apply cer_relabel_value_le. }
  split; [exact H|].
  intros r1 Hr. destruct (tree_error_rate_cer_ok _ _ _ _ _ _ Hr) as [d1 [Hd ->]].
  destruct (H d1 Hd) as [d2 [Hd2 Hle]].
  unfold tree_error_rate. rewrite Hd2.
  destruct (py_div_mono d1 d2 _ Hle (count_nodes_some ref)) as [r1 [r2 [E1 [E2 Hr12]]]].
  exists r2. split; [exact E2|].
  unfold py_div in E1. rewrite count_nodes_some in E1. injection E1 as <-. exact Hr12.
Qed.

(** Extra X7. [print_tree] prints exactly [count_nodes] lines (none for [None]), and the first one is the root label preceded by four spaces per level and a dash. *)
Theorem print_tree_lines (show : json -> string) (t : option node) (level : nat) :
  length (print_tree show t level) = count_nodes t /\
  (forall n, t = Some n ->
     head (print_tree show t level) =
       Some (append (indent level) (append "- " (show (get_label n))))).
Proof.
  split; [|intros n ->; destruct n; reflexivity].
  destruct t as [t|]; [|reflexivity]. simpl. revert level.
  induction t as [l ks IH] using node_ind_list. intros level. simpl. f_equal.
  induction IH as [|k ks Hk _ IHks]; [reflexivity|].
  simpl. rewrite length_app, Hk, IHks. reflexivity.
Qed.

Lemma fold_sum_app {X} (g : X -> Q) (l1 l2 : list X) :
  (fold_right (fun k acc => (g k + acc)%Q) 0%Q (l1 ++ l2) ==
   fold_right (fun k acc => (g k + acc)%Q) 0%Q l1 +
   fold_right (fun k acc => (g k + acc)%Q) 0%Q l2)%Q.
Proof.
  induction l1 as [|k l1 IH]; simpl; [lra|]. rewrite IH. lra.
Qed.

Lemma fold_sum_nonneg {X} (g : X -> Q) (l : list X) :
  (forall k, 0 <= g k)%Q -> (0 <= fold_right (fun k acc => (g k + acc)%Q) 0%Q l)%Q.
Proof.
  intros Hg. induction l as [|k l IH]; simpl; [lra|]. pose proof (Hg k). lra.
Qed.

Lemma sum_seq_S (g : nat -> Q) (s n : nat) :
  (sum_seq g s (S n) == sum_seq g s n + g (s + n)%nat)%Q.
Proof.
  unfold sum_seq. rewrite seq_S, fold_sum_app. simpl. lra.
Qed.

Lemma sum_seq_prefix (g : nat -> Q) (s n : nat) :
  (forall k, 0 <= g k)%Q -> (sum_seq g s n <= sum_seq g 0 (s + n))%Q.
Proof.
  intros Hg. unfold sum_seq. rewrite seq_app, fold_sum_app. simpl.
  pose proof (fold_sum_nonneg g (seq 0 s) Hg). lra.
Qed.

Lemma fold_sum_map {X Y} (g : Y -> Q) (h : X -> Y) (l : list X) :
  fold_right (fun k acc => (g k + acc)%Q) 0%Q (map h l) =
  fold_right (fun k acc => (g (h k) + acc)%Q) 0%Q l.
Proof. induction l as [|k l IH]; simpl; [reflexivity|]. rewrite IH. reflexivity. Qed.

Lemma sum_seq_nodes (f : node -> Q) (l : list node) (d : node) :
  sum_seq (fun a => f (nth a l d)) 0 (length l) = sum_nodes f l.
Proof.
  unfold sum_seq, sum_nodes. induction l as [|x l IH]; [reflexivity|].
  simpl length. rewrite <- cons_seq. simpl. f_equal.
  rewrite <- seq_shift, fold_sum_map. exact IH.
Qed.

Lemma post_sum (f : node -> Q) (t : node) : forall off,
  (sum_nodes f (post t off).1 == tree_sum f t)%Q.
Proof.
  induction t as [l ks IH] using node_ind_list. intros off.
  rewrite post_unfold.
  assert (Hgo : forall o, (sum_nodes f (post_go post ks o).1 ==
    (fix go (ks : list node) : Q :=
       match ks with [] => 0 | k :: r => tree_sum f k + go r end) ks)%Q).
  { induction IH as [|k ks Hk _ IHks]; intros o; simpl; [reflexivity|].
    destruct (post k o) as [n1 l1] eqn:E1.
    destruct (post_go post ks (o + length n1)) as [n2 l2] eqn:E2. simpl.
    specialize (Hk o). rewrite E1 in Hk. simpl in Hk.
    specialize (IHks (o + length n1)). rewrite E2 in IHks. simpl in IHks.
    unfold sum_nodes in *. rewrite fold_sum_app. lra. }
  destruct (post_go post ks off) as [ns ls] eqn:E. specialize (Hgo off). rewrite E in Hgo.
  simpl in *. unfold sum_nodes in *. rewrite fold_sum_app. simpl. lra.
Qed.

Lemma tree_sum_le_count (f : node -> Q) (t : node) :
  (forall n, f n <= 1)%Q -> (tree_sum f t <= inject_Z (Z.of_nat (count_node t)))%Q.
Proof.
  intros Hf. induction t as [l ks IH] using node_ind_list. simpl.
  assert (Hks : ((fix go (ks : list node) : Q :=
       match ks with [] => 0 | k :: r => tree_sum f k + go r end) ks <=
     inject_Z (Z.of_nat (list_sum (map count_node ks))))%Q).
  { induction IH as [|k ks Hk _ IHks]; simpl; [unfold Qle; simpl; lia|].
    rewrite Nat2Z.inj_add, inject_Z_plus. lra. }
  rewrite Nat2Z.inj_succ, <- Z.add_1_l, inject_Z_plus. pose proof (Hf (Node l ks)).
  change (inject_Z 1) with 1%Q. lra.
Qed.

Section UpperBound.

Variables (ins rem : node -> Q) (rel : node -> node -> Q) (A B : annotated).
Hypothesis Hins : forall n, (0 <= ins n)%Q.
Hypothesis Hrem : forall n, (0 <= rem n)%Q.

Let gA := fun a => rem (nodeA A a).
Let gB := fun b => ins (nodeA B b).

Lemma gA_nonneg k : (0 <= gA k)%Q. Proof. apply Hrem. Qed.
Lemma gB_nonneg k : (0 <= gB k)%Q. Proof. apply Hins. Qed.

Lemma ub_cell (i j : nat) (F : fdt) (D : dpt) (x y : nat) :
  1 <= x -> 1 <= y ->
  (forall a b, treedists D a b <= sum_seq gA 0 (S a) + sum_seq gB 0 (S b))%Q ->
  (forall x y, fd F x y <= sum_seq gA (lmd A i) x + sum_seq gB (lmd B j) y)%Q ->
  (forall a b, treedists (snd (treedist_cell ins rem rel A B i j (F, D) x y)) a b <=
     sum_seq gA 0 (S a) + sum_seq gB 0 (S b))%Q /\
  (forall x' y', fd (fst (treedist_cell ins rem rel A B i j (F, D) x y)) x' y' <=
     sum_seq gA (lmd A i) x' + sum_seq gB (lmd B j) y')%Q.
Proof.
  intros Hx Hy HD HF.
  pose proof (treedist_cell_tables ins rem rel A B i j F D x y) as HT. cbv zeta in HT.
  set (r := treedist_cell ins rem rel A B i j (F, D) x y) in *.
  assert (Hins_step : forall cs, In (fd F x (y - 1)%nat + ins (nodeA B (y + lmd B j - 1)))%Q cs ->
      (py_min cs <= sum_seq gA (lmd A i) x + sum_seq gB (lmd B j) y)%Q).
  { intros cs Hin. apply Qle_trans with (1 := py_min_le _ _ Hin).
    pose proof (HF x (y - 1)%nat). pose proof (sum_seq_S gB (lmd B j) (y - 1)).
    replace (S (y - 1)) with y in * by lia.
    replace (lmd B j + (y - 1))%nat with (y + lmd B j - 1)%nat in * by lia.
    unfold gB at 3 in H0. lra. }
  destruct (_ && _); destruct HT as [HTf HTd].
  - set (v := py_min _) in HTf, HTd.
    assert (Hv : (v <= sum_seq gA (lmd A i) x + sum_seq gB (lmd B j) y)%Q).
    { apply Hins_step. unfold lineage_costs. right; left. reflexivity. }
    split.
    + intros a b. rewrite HTd. unfold upd2.
      destruct (Nat.eqb a (x + lmd A i - 1) && Nat.eqb b (y + lmd B j - 1)) eqn:E; [|apply HD].
      apply andb_true_iff in E as [E1 E2]. apply Nat.eqb_eq in E1, E2. subst a b.
      pose proof (sum_seq_prefix gA (lmd A i) x gA_nonneg).
      pose proof (sum_seq_prefix gB (lmd B j) y gB_nonneg).
      replace (S (x + lmd A i - 1)) with (lmd A i + x)%nat by lia.
      replace (S (y + lmd B j - 1)) with (lmd B j + y)%nat by lia. lra.
    + intros x' y'. rewrite HTf. unfold upd2.
      destruct (Nat.eqb x' x && Nat.eqb y' y) eqn:E; [|apply HF].
      apply andb_true_iff in E as [E1 E2]. apply Nat.eqb_eq in E1, E2. subst x' y'. exact Hv.
  - split; [rewrite HTd; exact HD|]. intros x' y'. rewrite HTf. unfold upd2.
    destruct (Nat.eqb x' x && Nat.eqb y' y) eqn:E; [|apply HF].
    apply andb_true_iff in E as [E1 E2]. apply Nat.eqb_eq in E1, E2. subst x' y'.
    apply Hins_step. unfold reuse_costs. right; left. reflexivity.
Qed.

Lemma ub_init (i j : nat) : forall x y,
  (fd (treedist_init ins rem A B i j) x y <=
   sum_seq gA (lmd A i) x + sum_seq gB (lmd B j) y)%Q.
Proof.
  unfold treedist_init.
  set (P := fun F : fdt => forall x y,
    (fd F x y <= sum_seq gA (lmd A i) x + sum_seq gB (lmd B j) y)%Q).
  apply (fold_left_invariant P (fun y => 1 <= y)); [|apply Forall_seq_pos|].
  - apply (fold_left_invariant P (fun x => 1 <= x)); [|apply Forall_seq_pos|].
    + intros x y. simpl.
      pose proof (fold_sum_nonneg gA (seq (lmd A i) x) gA_nonneg).
      pose proof (fold_sum_nonneg gB (seq (lmd B j) y) gB_nonneg).
      unfold sum_seq. lra.
    + intros F x H Hx x' y'. simpl. unfold upd2.
      destruct (Nat.eqb x' x && Nat.eqb y' 0) eqn:E; [|apply H].
      apply andb_true_iff in E as [E1 E2]. apply Nat.eqb_eq in E1, E2. subst x' y'.
      pose proof (H (x - 1)%nat 0%nat). pose proof (sum_seq_S gA (lmd A i) (x - 1)).
      replace (S (x - 1)) with x in * by lia.
      replace (lmd A i + (x - 1))%nat with (x + lmd A i - 1)%nat in * by lia.
      unfold gA at 3 in H1. lra.
  - intros F y H Hy x' y'. simpl. unfold upd2.
    destruct (Nat.eqb x' 0 && Nat.eqb y' y) eqn:E; [|apply H].
    apply andb_true_iff in E as [E1 E2]. apply Nat.eqb_eq in E1, E2. subst x' y'.
    pose proof (H 0%nat (y - 1)%nat). pose proof (sum_seq_S gB (lmd B j) (y - 1)).
    replace (S (y - 1)) with y in * by lia.
    replace (lmd B j + (y - 1))%nat with (y + lmd B j - 1)%nat in * by lia.
    unfold gB at 3 in H1. lra.
Qed.

Lemma ub_distance_tables : forall a b,
  (treedists (distance_tables ins rem rel A B) a b <=
   sum_seq gA 0 (S a) + sum_seq gB 0 (S b))%Q.
Proof.
  set (P := fun D : dpt => forall a b,
    (treedists D a b <= sum_seq gA 0 (S a) + sum_seq gB 0 (S b))%Q).
  unfold distance_tables.
  apply (fold_left_invariant P (fun _ => True)); [|apply Forall_true; auto|].
  { intros a b. simpl.
    pose proof (fold_sum_nonneg gA (seq 0 (S a)) gA_nonneg).
    pose proof (fold_sum_nonneg gB (seq 0 (S b)) gB_nonneg). unfold sum_seq. lra. }
  intros D i HD _.
  apply (fold_left_invariant P (fun _ => True)); [exact HD|apply Forall_true; auto|].
  intros D' j HD' _. unfold treedist, treedist_tables.
  set (L := fun F : fdt => forall x y,
    (fd F x y <= sum_seq gA (lmd A i) x + sum_seq gB (lmd B j) y)%Q).
  cut (P (snd (fold_left (fun acc x =>
      fold_left (fun acc y => treedist_cell ins rem rel A B i j acc x y)
        (seq 1 (fd_cols B j - 1)) acc)
    (seq 1 (fd_rows A i - 1)) (treedist_init ins rem A B i j, D'))) /\
    L (fst (fold_left (fun acc x =>
      fold_left (fun acc y => treedist_cell ins rem rel A B i j acc x y)
        (seq 1 (fd_cols B j - 1)) acc)
    (seq 1 (fd_rows A i - 1)) (treedist_init ins rem A B i j, D')))); [tauto|].
  apply (fold_left_invariant (fun acc : fdt * dpt => P (snd acc) /\ L (fst acc))
    (fun x => 1 <= x)); [|apply Forall_seq_pos|].
  - split; [exact HD'|intros x y; apply ub_init].
  - intros acc x Hacc Hx.
    apply (fold_left_invariant (fun acc : fdt * dpt => P (snd acc) /\ L (fst acc))
      (fun y => 1 <= y)); [exact Hacc|apply Forall_seq_pos|].
    intros [F0 D0] y [H1 H2] Hy. apply ub_cell; assumption.
Qed.

End UpperBound.

Lemma distance_core_le_sums (ins rem : node -> Q) (rel : node -> node -> Q)
    (Hins : forall n, (0 <= ins n)%Q) (Hrem : forall n, (0 <= rem n)%Q) (ta tb : node) :
  exists d, distance_core ins rem rel (Some ta) (Some tb) false = Ok (VNum d) /\
    (d <= tree_sum rem ta + tree_sum ins tb)%Q.
Proof.
  rewrite distance_core_some. eexists. split; [reflexivity|].
  set (A := mkAnnotated (post ta 0).1 (post ta 0).2 (keyroots_of (post ta 0).2)).
  set (B := mkAnnotated (post tb 0).1 (post tb 0).2 (keyroots_of (post tb 0).2)).
  pose proof (ub_distance_tables ins rem rel A B Hins Hrem
    (length (a_nodes A) - 1) (length (a_nodes B) - 1)) as H.
  assert (La : length (a_nodes A) = count_node ta) by apply (post_length ta 0).
  assert (Lb : length (a_nodes B) = count_node tb) by apply (post_length tb 0).
  assert (Pa : 1 <= count_node ta) by (destruct ta; simpl; lia).
  assert (Pb : 1 <= count_node tb) by (destruct tb; simpl; lia).
  replace (S (length (a_nodes A) - 1)) with (length (a_nodes A)) in H by lia.
  replace (S (length (a_nodes B) - 1)) with (length (a_nodes B)) in H by lia.
  unfold nodeA in H. rewrite !sum_seq_nodes in H.
  pose proof (post_sum rem ta 0). pose proof (post_sum ins tb 0).
  unfold A, B in *. simpl in *. lra.
Qed.

(** Extra X8. With non-negative insert and remove costs and any update cost,
    the distance of two trees is at most the cost of removing every node of
    the first tree plus the cost of inserting every node of the second. *)
Theorem distance_le_remove_insert_all (ins rem : node -> Q) (rel : node -> node -> Q)
    (Hins : forall n, (0 <= ins n)%Q) (Hrem : forall n, (0 <= rem n)%Q) (ta tb : node) :
  exists d, distance_core ins rem rel (Some ta) (Some tb) false = Ok (VNum d) /\
    (d <= tree_sum rem ta + tree_sum ins tb)%Q.
Proof. exact (distance_core_le_sums ins rem rel Hins Hrem ta tb). Qed.

Lemma distance_le_remove_insert_all_witness :
  (forall n : node, (0 <= 1)%Q) /\
  exists d,
    distance_core (fun _ => 1%Q) (fun _ => 1%Q) (fun _ _ => 5%Q)
      (Some (Node (key "a") [Node (key "b") []])) (Some (Node (key "c") [])) false
      = Ok (VNum d) /\ (d <= 3)%Q.
Proof.
  assert (H : forall n : node, (0 <= 1)%Q) by (intros; lra).
  split; [exact H|].
  exact (distance_le_remove_insert_all (fun _ => 1%Q) (fun _ => 1%Q) (fun _ _ => 5%Q) H H
    (Node (key "a") [Node (key "b") []]) (Node (key "c") [])).
Defined.

Lemma rate_bound_div (d : Q) (m n : nat) :
  (d <= inject_Z (Z.of_nat m) + inject_Z (Z.of_nat n))%Q -> Nat.eqb m 0 = false ->
  exists r, py_div (VNum d) m = Ok r /\
    (r <= inject_Z (Z.of_nat (m + n)) / inject_Z (Z.of_nat m))%Q.
Proof.
  intros Hd Hm. unfold py_div. rewrite Hm. eexists. split; [reflexivity|].
  rewrite Nat2Z.inj_add, inject_Z_plus. apply Qmult_le_compat_r; [exact Hd|].
  apply Qinv_le_0_compat. unfold Qle. simpl. lia.
Qed.

(** Extra X9. If the label distance and [zss]'s [strdist] charge between 0 and 1 for inserting or removing any label (as the 0/1 fallback [strdist] does), the plain tree error rate is returned and is at most (count_nodes(ref) + count_nodes(hyp)) / count_nodes(ref), and so is the CER-weighted one whenever it is returned. *)
Theorem tree_error_rate_bounded (zss_strdist label_dist : json -> json -> Q)
    (cer : json -> json -> result Q)
    (Hzs : unit_bounded zss_strdist) (Hld : unit_bounded label_dist)
    (ref hyp : node) :
  (exists r,
    tree_error_rate zss_strdist label_dist cer (Some ref) (Some hyp) false false = Ok r /\
    (r <= inject_Z (Z.of_nat (count_nodes (Some ref) + count_nodes (Some hyp))) /
          inject_Z (Z.of_nat (count_nodes (Some ref))))%Q) /\
  (forall r,
    tree_error_rate zss_strdist label_dist cer (Some ref) (Some hyp) true false = Ok r ->
    (r <= inject_Z (Z.of_nat (count_nodes (Some ref) + count_nodes (Some hyp))) /
          inject_Z (Z.of_nat (count_nodes (Some ref))))%Q).
Proof.
  assert (Hdist : forall ld rel, unit_bounded ld ->
    exists d, distance_core (ins_cost ld) (rem_cost ld) rel (Some ref) (Some hyp) false
              = Ok (VNum d) /\
      (d <= inject_Z (Z.of_nat (count_node ref)) + inject_Z (Z.of_nat (count_node hyp)))%Q).
  { intros ld rel Hb.
    destruct (distance_core_le_sums (ins_cost ld) (rem_cost ld) rel
      (fun n => proj1 (proj1 (Hb (get_label n)))) (fun n => proj1 (proj2 (Hb (get_label n))))
      ref hyp) as [d [Hd Hle]].
    exists d. split; [exact Hd|].
    pose proof (tree_sum_le_count (rem_cost ld) ref
      (fun n => proj2 (proj2 (Hb (get_label n))))).
    pose proof (tree_sum_le_count (ins_cost ld) hyp
      (fun n => proj2 (proj1 (Hb (get_label n))))).
    lra. }
  split.
  - destruct (Hdist zss_strdist (upd_cost zss_strdist) Hzs) as [d [Hd Hle]].
    unfold tree_error_rate, simple_distance, zss_distance. rewrite Hd.
    apply rate_bound_div; [exact Hle|apply count_nodes_some].
  - intros r Hr. destruct (tree_error_rate_cer_ok _ _ _ _ _ _ Hr) as [d [Hd ->]].
    apply distance_with_cer_ok in Hd.
    destruct (Hdist label_dist (cer_relabel_value (upd_cost label_dist) cer) Hld)
      as [d' [Hd' Hle]].
    rewrite Hd in Hd'. injection Hd' as <-.
    destruct (rate_bound_div d _ _ Hle (count_nodes_some ref)) as [r [E Hr']].
    unfold py_div in E. destruct (Nat.eqb _ 0); [discriminate|].
    injection E as <-. exact Hr'.
Qed.

Lemma strdist_fallback_unit_bounded : unit_bounded strdist_fallback.
Proof.
  intros l. unfold strdist_fallback.
  destruct (json_eqb empty_label l), (json_eqb l empty_label); lra.
Qed.

Lemma tree_error_rate_bounded_witness :
  unit_bounded strdist_fallback /\
  exists r,
    tree_error_rate strdist_fallback strdist_fallback
      (jiwer_cer (fun a b => Ok (strdist_fallback a b)))
      (Some (Node (key "a") [])) (Some (Node (key "b") [Node (key "c") []])) false false
      = Ok r /\ (r <= 3)%Q.
Proof.
  split; [exact strdist_fallback_unit_bounded|].
  destruct (tree_error_rate_bounded strdist_fallback strdist_fallback
    (jiwer_cer (fun a b => Ok (strdist_fallback a b)))
    strdist_fallback_unit_bounded strdist_fallback_unit_bounded
    (Node (key "a") []) (Node (key "b") [Node (key "c") []])) as [[r [Hr Hle]] _].
  exists r. split; [exact Hr|]. exact Hle.
Defined.

(** Extra X10. If [jiwer.cer] returns a value on every pair of labels of the two trees, [distance_with_cer] returns (no exception), and its result is that of the shared Zhang-Shasha engine run with the CER-weighted relabel costs. *)
Theorem distance_with_cer_completes (insert_cost remove_cost : node -> Q)
    (update_cost : node -> node -> Q) (cer : json -> json -> result Q)
    (ta tb : node) (return_operations : bool) (Hdef : cer_defined cer ta tb) :
  exists v,
    distance_with_cer insert_cost remove_cost update_cost cer (Some ta) (Some tb)
      return_operations = Ok v /\
    distance_core insert_cost remove_cost (cer_relabel_value update_cost cer)
      (Some ta) (Some tb) return_operations = Ok v.
Proof.
  rewrite (distance_with_cer_defined _ _ _ _ _ _ _ Hdef).
  unfold distance_core. rewrite !annotated_some.
  destruct return_operations; eexists; split; reflexivity.
Qed.

Lemma distance_with_cer_completes_witness :
  cer_defined (jiwer_cer (fun a b => Ok (strdist_fallback a b)))
    (Node (key "a") [Node (JScalar (SStr "b")) []]) (Node (key "c") []) /\
  exists v,
    distance_with_cer (ins_cost strdist_fallback) (rem_cost strdist_fallback)
      (upd_cost strdist_fallback) (jiwer_cer (fun a b => Ok (strdist_fallback a b)))
      (Some (Node (key "a") [Node (JScalar (SStr "b")) []])) (Some (Node (key "c") []))
      false = Ok v.
Proof.
  assert (Hdef : cer_defined (jiwer_cer (fun a b => Ok (strdist_fallback a b)))
    (Node (key "a") [Node (JScalar (SStr "b")) []]) (Node (key "c") [])).
  { intros l1 l2 H1 H2. simpl in H1, H2.
    destruct H1 as [<-|[<-|[]]]; destruct H2 as [<-|[]]; eexists; reflexivity. }
  split; [exact Hdef|].
  destruct (distance_with_cer_completes (ins_cost strdist_fallback)
    (rem_cost strdist_fallback) (upd_cost strdist_fallback)
    (jiwer_cer (fun a b => Ok (strdist_fallback a b)))
    (Node (key "a") [Node (JScalar (SStr "b")) []]) (Node (key "c") []) false Hdef)
    as [v [Hv _]].
  exists v. exact Hv.
Defined.


